(** * Workflow graph engine: a shallow embedding of [app/core/engine.py],
      [app/core/models.py], [app/core/registry.py] and
      [app/db/memory_store.py], with the properties of its run log, its abort
      paths, its loop bounds and its state handling. *)

From stdpp Require Import gmap strings list fin_maps pretty.

Local Open Scope string_scope.
Local Open Scope list_scope.
Local Open Scope nat_scope.

Set Warnings "-register-all".

(** ** Python values

    A run's state is a [Dict[str, Any]].  The top-level dictionary is copied
    with [dict.copy()] wherever the engine hands it on, so it is modelled by
    value as a [gmap string value].  The values it holds are not copied:
    mutable ones (lists, nested dictionaries) are references into a heap that
    the caller, the run state, every log snapshot and every node share. *)

Definition loc := positive.

Inductive value :=
  | VNone
  | VBool (b : bool)
  | VInt (z : Z)
  | VStr (s : string)
  | VRef (l : loc).

Inductive object :=
  | OList (items : list value)
  | ODict (fields : gmap string value).

#[global] Instance value_eq_dec : EqDecision value.
Proof. solve_decision. Defined.

#[global] Instance object_eq_dec : EqDecision object.
Proof. solve_decision. Defined.

Abbreviation dict := (gmap string value).

(** What the rest of the Python process holds: the heap of mutable objects
    and the wall clock read by [time.time()]. *)
Record World := {
  heap : gmap loc object;
  now : Z;
}.

(** The content of a value with every reference followed, [depth] levels
    down: what a reader of the value sees at a given moment. *)
Inductive content :=
  | CNone
  | CBool (b : bool)
  | CInt (z : Z)
  | CStr (s : string)
  | CList (items : list content)
  | CDict (fields : list (string * content))
  | CDangling.

Fixpoint read (depth : nat) (h : gmap loc object) (v : value) : content :=
  match v with
  | VNone => CNone
  | VBool b => CBool b
  | VInt z => CInt z
  | VStr s => CStr s
  | VRef l =>
      match depth with
      | 0 => CDangling
      | S d =>
          match h !! l with
          | Some (OList items) => CList (read d h <$> items)
          | Some (ODict fields) =>
              CDict (prod_map id (read d h) <$> map_to_list fields)
          | None => CDangling
          end
      end
  end.

Definition read_dict (depth : nat) (h : gmap loc object) (d : dict)
  : gmap string content :=
  read depth h <$> d.

(** ** Python strings *)

(** [s[n:]] *)
Fixpoint slice_from (n : nat) (s : string) : string :=
  match n, s with
  | 0, _ => s
  | S k, String _ rest => slice_from k rest
  | S _, EmptyString => EmptyString
  end.

(** [s.startswith(p)] *)
Definition startswith (s p : string) : bool := String.prefix p s.

(** Truthiness of a [str]: only the empty string is falsy. *)
Definition truthy (s : string) : bool :=
  match s with
  | EmptyString => false
  | String _ _ => true
  end.

(** Truthiness of an [Optional[str]]. *)
Definition truthy_opt (o : option string) : bool :=
  match o with
  | None => false
  | Some s => truthy s
  end.

(** ** Exceptions *)

Inductive exn :=
  | ValueError (msg : string)
  | RuntimeError (msg : string)
  | ImportError (msg : string)
  | Exception (msg : string).

(** [str(e)] *)
Definition str (e : exn) : string :=
  match e with
  | ValueError m | RuntimeError m | ImportError m | Exception m => m
  end.

(** ** models.py *)

(** [Union[str, List[str]]] *)
Inductive edge :=
  | EStr (target : string)
  | EList (targets : list string).

(** [nodes] keeps the insertion order of the Python dict: the default start
    node is its first key. *)
Record GraphDefinition := {
  graph_id : string;
  nodes : list (string * string);
  edges : gmap string edge;
  metadata : option dict;
}.

(** The [status] of an entry is [entry_status] here, and the [graph_id]
    of a run [run_graph_id]: record fields share one name space. *)
Record ExecutionLogEntry := {
  node_name : string;
  state_snapshot : dict;
  timestamp : Z;
  entry_status : string;
}.

Record RunState := {
  run_id : string;
  run_graph_id : string;
  state : dict;
  log : list ExecutionLogEntry;
  status : string;
  current_node : option string;
  error : option string;
}.

(** [entry.status = s] *)
Definition set_entry_status (s : string) (e : ExecutionLogEntry)
  : ExecutionLogEntry :=
  {| node_name := node_name e; state_snapshot := state_snapshot e;
     timestamp := timestamp e; entry_status := s |}.

Definition set_state (d : dict) (r : RunState) : RunState :=
  {| run_id := run_id r; run_graph_id := run_graph_id r; state := d;
     log := log r; status := status r; current_node := current_node r;
     error := error r |}.

Definition set_log (l : list ExecutionLogEntry) (r : RunState) : RunState :=
  {| run_id := run_id r; run_graph_id := run_graph_id r; state := state r;
     log := l; status := status r; current_node := current_node r;
     error := error r |}.

Definition set_status (s : string) (r : RunState) : RunState :=
  {| run_id := run_id r; run_graph_id := run_graph_id r; state := state r;
     log := log r; status := s; current_node := current_node r;
     error := error r |}.

Definition set_current_node (c : option string) (r : RunState) : RunState :=
  {| run_id := run_id r; run_graph_id := run_graph_id r; state := state r;
     log := log r; status := status r; current_node := c;
     error := error r |}.

Definition set_error (e : option string) (r : RunState) : RunState :=
  {| run_id := run_id r; run_graph_id := run_graph_id r; state := state r;
     log := log r; status := status r; current_node := current_node r;
     error := e |}.

(** [dict.get] on the ordered node mapping. *)
Fixpoint nodes_get (ns : list (string * string)) (k : string) : option string :=
  match ns with
  | [] => None
  | (k', v) :: rest => if decide (k' = k) then Some v else nodes_get rest k
  end.

(** [k in graph.nodes] *)
Definition nodes_contains (ns : list (string * string)) (k : string) : bool :=
  bool_decide (is_Some (nodes_get ns k)).

(** ** Node functions

    A node is an async function of the state copy it is handed.  It returns
    a mapping, a string or anything else, or raises; it may change the heap
    and let time pass whatever it does. *)

Inductive py_result :=
  | RDict (d : dict)
  | RStr (s : string)
  | ROther.

Inductive node_outcome :=
  | Returned (r : py_result)
  | Raised (msg : string).

Definition node_func := dict → World → node_outcome * World.

(** ** registry.py *)

Record ToolRegistry := {
  tools : gmap string node_func;
}.

Section Engine.

(** The Python module system behind [load_from_path]: for a dotted path,
    [importlib.import_module], [getattr] and the coroutine check either give
    the function or fail with the message of the [ImportError],
    [AttributeError] or [ValueError] they raise. *)
Variable import_function : string → string + node_func.

Definition load_from_path (self : ToolRegistry) (path : string)
  : (exn + node_func) * ToolRegistry :=
  match tools self !! path with
  | Some func => (inr func, self)
  | None =>
      match import_function path with
      | inr func => (inr func, {| tools := <[path := func]> (tools self) |})
      | inl e =>
          (inl (ImportError
                  ("Failed to load function from path '" +:+ path +:+ "': " +:+ e)),
           self)
      end
  end.

(** ** memory_store.py *)

(** Both dictionaries are keyed by the [str] of a UUID.  [create_graph], the
    only writer of [_graphs], files a graph under [str(graph_def.graph_id)],
    so for an id that [get_graph] finds, [UUID(graph_id)] parses and stands
    for the same id: ids are kept as these strings throughout. *)
Record MemoryStore := {
  graphs : gmap string GraphDefinition;
  runs : gmap string RunState;
}.

Definition get_graph (self : MemoryStore) (graph_id : string)
  : option GraphDefinition :=
  graphs self !! graph_id.

(** [uuid] is the value drawn by [uuid4()].  [initial_state.copy()] copies
    the top-level mapping only: the values of the new state are the very
    values of the caller's mapping. *)
Definition create_run (self : MemoryStore) (uuid : string)
    (graph_id : string) (initial_state : dict) : string * MemoryStore :=
  let run_state :=
    {| run_id := uuid; run_graph_id := graph_id; state := initial_state;
       log := []; status := "running"; current_node := None;
       error := None |} in
  (uuid, {| graphs := graphs self; runs := <[uuid := run_state]> (runs self) |}).

Definition get_run (self : MemoryStore) (run_id : string) : option RunState :=
  runs self !! run_id.

Definition update_run (self : MemoryStore) (run_id : string)
    (run_state : RunState) : MemoryStore :=
  {| graphs := graphs self; runs := <[run_id := run_state]> (runs self) |}.

(** ** engine.py *)

Record WorkflowEngine := {
  max_iterations : nat;
  max_loop_iterations : nat;
}.

(** The global engine instance, as [__init__] sets it up. *)
Definition engine : WorkflowEngine :=
  {| max_iterations := 1000; max_loop_iterations := 100 |}.

(** [state.update(result)]: one item assignment per item of [result]. *)
Definition dict_update (state result : dict) : dict :=
  map_fold (λ k v acc, <[k := v]> acc) state result.

(** The node receives [state.copy()]: its own top-level mapping, holding the
    same values.  Whatever it does to that mapping is lost; only the value
    it returns and its effects on the heap reach the engine. *)
Definition execute_node (node_name : string) (node_func : node_func)
    (state : dict) (w : World) : (exn + dict * option string) * World :=
  let state_copy := state in
  match node_func state_copy w with
  | (Returned result, w') =>
      match result with
      | RDict d => (inr (dict_update state d, None), w')
      | RStr s =>
          if decide (s = "repeat") then (inr (state, Some "repeat"), w')
          else if startswith s "goto:" then
            (inr (state, Some (slice_from 5 s)), w')
          else (inr (state, None), w')
      | ROther => (inr (state, None), w')
      end
  | (Raised e, w') =>
      (inl (Exception ("Error executing node '" +:+ node_name +:+ "': " +:+ e)),
       w')
  end.

Definition get_next_nodes (current_node : string) (edges : gmap string edge)
    (state : dict) : option edge :=
  edges !! current_node.

(** The local variables of [execute_graph] inside its [try], with the parts
    of the process the loop reads and writes.  [run_state] is the object
    the store holds under the run's id: the loop mutates it in place. *)
Record LoopState := {
  run_state : RunState;
  current : option string;
  iteration_count : nat;
  loop_count : nat;
  visited_nodes : gset string;
  registry : ToolRegistry;
  world : World;
}.

Definition on_run (f : RunState → RunState) (st : LoopState) : LoopState :=
  {| run_state := f (run_state st); current := current st;
     iteration_count := iteration_count st; loop_count := loop_count st;
     visited_nodes := visited_nodes st; registry := registry st;
     world := world st |}.

Definition set_current (c : option string) (st : LoopState) : LoopState :=
  {| run_state := run_state st; current := c;
     iteration_count := iteration_count st; loop_count := loop_count st;
     visited_nodes := visited_nodes st; registry := registry st;
     world := world st |}.

Definition set_iteration_count (n : nat) (st : LoopState) : LoopState :=
  {| run_state := run_state st; current := current st;
     iteration_count := n; loop_count := loop_count st;
     visited_nodes := visited_nodes st; registry := registry st;
     world := world st |}.

Definition set_loop_count (n : nat) (st : LoopState) : LoopState :=
  {| run_state := run_state st; current := current st;
     iteration_count := iteration_count st; loop_count := n;
     visited_nodes := visited_nodes st; registry := registry st;
     world := world st |}.

Definition set_visited_nodes (v : gset string) (st : LoopState) : LoopState :=
  {| run_state := run_state st; current := current st;
     iteration_count := iteration_count st; loop_count := loop_count st;
     visited_nodes := v; registry := registry st; world := world st |}.

Definition set_registry (r : ToolRegistry) (st : LoopState) : LoopState :=
  {| run_state := run_state st; current := current st;
     iteration_count := iteration_count st; loop_count := loop_count st;
     visited_nodes := visited_nodes st; registry := r; world := world st |}.

Definition set_world (w : World) (st : LoopState) : LoopState :=
  {| run_state := run_state st; current := current st;
     iteration_count := iteration_count st; loop_count := loop_count st;
     visited_nodes := visited_nodes st; registry := registry st;
     world := w |}.

(** How one pass through the body of the [while] ends. *)
Inductive control :=
  | Continue (st : LoopState)
  | Break (st : LoopState)
  | Raise (e : exn) (st : LoopState).

Definition control_state (c : control) : LoopState :=
  match c with
  | Continue st | Break st | Raise _ st => st
  end.

Definition loop_limit_message (self : WorkflowEngine) : string :=
  "Loop iteration limit (" +:+ pretty (max_loop_iterations self) +:+ ") exceeded".

Definition max_iterations_message (self : WorkflowEngine) : string :=
  "Maximum iterations (" +:+ pretty (max_iterations self) +:+ ") exceeded".

(** "Handle next action": the [if]/[elif] chain after the log append. *)
Definition handle_next_action (self : WorkflowEngine) (graph : GraphDefinition)
    (current_node : string) (next_action : option string) (st : LoopState)
  : control :=
  if bool_decide (next_action = Some "repeat") then
    let st := set_loop_count (loop_count st + 1) st in
    if bool_decide (max_loop_iterations self ≤ loop_count st)%nat then
      Raise (RuntimeError (loop_limit_message self)) st
    else Continue st
  else if truthy_opt next_action && startswith (default "" next_action) "goto:" then
    Continue (set_loop_count 0
                (set_current (Some (slice_from 5 (default "" next_action))) st))
  else if truthy_opt next_action then
    Continue (set_loop_count 0 (set_current next_action st))
  else
    match get_next_nodes current_node (edges graph) (state (run_state st)) with
    | None => Break (on_run (set_status "completed") st)
    | Some (EStr next_nodes) =>
        Continue (set_loop_count 0 (set_current (Some next_nodes) st))
    | Some (EList next_nodes) =>
        match next_nodes with
        | first :: _ => Continue (set_loop_count 0 (set_current (Some first) st))
        | [] => Break (on_run (set_status "completed") st)
        end
    end.

(** The body of the [while], from [iteration_count += 1] on. *)
Definition loop_body (self : WorkflowEngine) (graph : GraphDefinition)
    (st : LoopState) : control :=
  let st := set_iteration_count (iteration_count st + 1) st in
  match current st with
  | None => Break (on_run (set_status "completed") st)
  | Some current_node =>
      let node_path := nodes_get (nodes graph) current_node in
      if negb (truthy_opt node_path) then
        Raise (ValueError
                 ("Node '" +:+ current_node +:+ "' not found in graph definition"))
              st
      else
        let node_path := default "" node_path in
        match load_from_path (registry st) node_path with
        | (inl e, reg) =>
            Raise (ValueError
                     ("Failed to load node function '" +:+ node_path +:+ "': "
                      +:+ str e))
                  (set_registry reg st)
        | (inr node_func, reg) =>
            let st := set_registry reg st in
            let st := on_run (set_current_node (Some current_node)) st in
            match execute_node current_node node_func
                    (state (run_state st)) (world st) with
            | (inl e, w) => Raise e (set_world w st)
            | (inr (updated_state, next_action), w) =>
                let st := set_world w st in
                let st := on_run (set_state updated_state) st in
                let log_entry :=
                  {| node_name := current_node;
                     state_snapshot := updated_state;
                     timestamp := now w;
                     entry_status := "completed" |} in
                let st := on_run (λ r, set_log (log r ++ [log_entry]) r) st in
                let st :=
                  set_visited_nodes ({[current_node]} ∪ visited_nodes st) st in
                handle_next_action self graph current_node next_action st
            end
        end
  end.

(** How the [while] ends: by [break], by its [else] once the condition
    fails, or by an exception leaving the body. *)
Inductive loop_exit :=
  | Completed (st : LoopState)
  | Exhausted (st : LoopState)
  | Aborted (e : exn) (st : LoopState).

Definition exit_state (x : loop_exit) : LoopState :=
  match x with
  | Completed st | Exhausted st | Aborted _ st => st
  end.

(** [while iteration_count < self.max_iterations: ... else: ...].  [fuel]
    bounds the passes the model follows; the loop's own bound is the test
    on [iteration_count]. *)
Fixpoint while_loop (self : WorkflowEngine) (graph : GraphDefinition)
    (fuel : nat) (st : LoopState) : option loop_exit :=
  match fuel with
  | 0 => None
  | S fuel' =>
      if bool_decide (iteration_count st < max_iterations self)%nat then
        match loop_body self graph st with
        | Continue st' => while_loop self graph fuel' st'
        | Break st' => Some (Completed st')
        | Raise e st' => Some (Aborted e st')
        end
      else
        Some (Exhausted
                (on_run (λ r, set_error (Some (max_iterations_message self))
                                (set_status "failed" r)) st))
  end.

(** The [except Exception as e] handler. *)
Definition handle_error (e : exn) (st : LoopState) : LoopState :=
  let st := on_run (set_status "failed") st in
  let st := on_run (set_error (Some (str e))) st in
  let st := on_run (set_current_node None) st in
  match log (run_state st) with
  | [] =>
      let node :=
        if truthy_opt (current st) then default "" (current st) else "unknown" in
      let log_entry :=
        {| node_name := node;
           state_snapshot := state (run_state st);
           timestamp := now (world st);
           entry_status := "error" |} in
      on_run (λ r, set_log (log r ++ [log_entry]) r) st
  | entries =>
      on_run (set_log (alter (set_entry_status "error")
                         (length entries - 1) entries)) st
  end.

(** What follows the loop inside the [try], or the handler. *)
Definition finish (x : loop_exit) : LoopState :=
  match x with
  | Completed st | Exhausted st => on_run (set_current_node None) st
  | Aborted e st => handle_error e st
  end.

(** The [try] statement as a whole: the loop, then "Update final state" or
    the handler. *)
Definition traversal (self : WorkflowEngine) (graph : GraphDefinition)
    (fuel : nat) (st : LoopState) : option LoopState :=
  finish <$> while_loop self graph fuel st.

(** The locals as they are set just before the [try]. *)
Definition initial_loop_state (run : RunState) (current_node : string)
    (reg : ToolRegistry) (w : World) : LoopState :=
  {| run_state := run; current := Some current_node;
     iteration_count := 0; loop_count := 0; visited_nodes := ∅;
     registry := reg; world := w |}.

(** The process around one call: the global store and registry, and the
    world the nodes act on. *)
Record Process := {
  p_store : MemoryStore;
  p_registry : ToolRegistry;
  p_world : World;
}.

(** "Determine starting node". *)
Definition starting_node (graph : GraphDefinition) (start_node : option string)
  : exn + string :=
  if truthy_opt start_node then
    let start_node := default "" start_node in
    if negb (nodes_contains (nodes graph) start_node) then
      inl (ValueError ("Start node '" +:+ start_node +:+ "' not found in graph"))
    else inr start_node
  else
    match nodes graph with
    | [] => inl (ValueError "Graph has no nodes")
    | (first, _) :: _ => inr first
    end.

(** [execute_graph]: either raises or returns the run state, and leaves the
    process changed.  [None] only when [fuel] runs out before the loop
    ends. *)
Definition execute_graph (self : WorkflowEngine) (fuel : nat) (p : Process)
    (uuid : string) (graph_id : string) (initial_state : dict)
    (start_node : option string) : option ((exn + RunState) * Process) :=
  match get_graph (p_store p) graph_id with
  | None => Some (inl (ValueError ("Graph '" +:+ graph_id +:+ "' not found")), p)
  | Some graph =>
      let '(run_id_str, store) :=
        create_run (p_store p) uuid graph_id initial_state in
      let p := {| p_store := store; p_registry := p_registry p;
                  p_world := p_world p |} in
      match get_run store run_id_str with
      | None => Some (inl (RuntimeError "Failed to create run"), p)
      | Some run =>
          match starting_node graph start_node with
          | inl e => Some (inl e, p)
          | inr current_node =>
              let st :=
                initial_loop_state run current_node (p_registry p) (p_world p) in
              match traversal self graph fuel st with
              | None => None
              | Some st =>
                  Some (inr (run_state st),
                        {| p_store := update_run store run_id_str (run_state st);
                           p_registry := registry st;
                           p_world := world st |})
              end
          end
      end
  end.

End Engine.

(** ** Vocabulary of the properties *)

(** The run as [create_run] stores it. *)
Definition created_run (uuid graph_id : string) (initial_state : dict)
  : RunState :=
  {| run_id := uuid; run_graph_id := graph_id; state := initial_state;
     log := []; status := "running"; current_node := None; error := None |}.

Definition after_create_run (p : Process) (uuid graph_id : string)
    (initial_state : dict) : Process :=
  {| p_store :=
       {| graphs := graphs (p_store p);
          runs := <[uuid := created_run uuid graph_id initial_state]>
                    (runs (p_store p)) |};
     p_registry := p_registry p;
     p_world := p_world p |}.

(** The loop state with its counter incremented, as every pass starts. *)
Definition entered (st : LoopState) : LoopState :=
  set_iteration_count (iteration_count st + 1) st.

(** The loop state right after the log append of a pass that ran node
    [cur]. *)
Definition after_invocation (st : LoopState) (cur : string) (state' : dict)
    (reg' : ToolRegistry) (w' : World) : LoopState :=
  {| run_state :=
       {| run_id := run_id (run_state st);
          run_graph_id := run_graph_id (run_state st);
          state := state';
          log := log (run_state st) ++
                   [{| node_name := cur; state_snapshot := state';
                       timestamp := now w';
                       entry_status := "completed" |}];
          status := status (run_state st);
          current_node := Some cur;
          error := error (run_state st) |};
     current := Some cur;
     iteration_count := iteration_count st + 1;
     loop_count := loop_count st;
     visited_nodes := {[cur]} ∪ visited_nodes st;
     registry := reg';
     world := w' |}.

(** [f] returns the literal [repeat] on its next [n] invocations, the first
    of them in world [w] (a string result leaves the state as it is). *)
Fixpoint repeats (f : node_func) (n : nat) (s : dict) (w : World) : Prop :=
  match n with
  | 0 => True
  | S k => ∃ w', f s w = (Returned (RStr "repeat"), w') ∧ repeats f k s w'
  end.

(** A result that is no control-flow string. *)
Definition no_control_flow (r : py_result) : Prop :=
  match r with
  | RStr s => s ≠ "repeat" ∧ startswith s "goto:" = false
  | RDict _ | ROther => True
  end.

(** [f] always returns, and never a control-flow string. *)
Definition plain_node (f : node_func) : Prop :=
  ∀ s w, ∃ r w', f s w = (Returned r, w') ∧ no_control_flow r.

(** The first successor the edge mapping gives a node. *)
Definition successor (graph : GraphDefinition) (n : string) : option string :=
  match edges graph !! n with
  | Some (EStr m) => Some m
  | Some (EList (m :: _)) => Some m
  | Some (EList []) | None => None
  end.

(** The final store, registry and world of a call whose [try] ended in
    [st]. *)
Definition after_traversal (p : Process) (uuid graph_id : string)
    (initial_state : dict) (st : LoopState) : Process :=
  {| p_store :=
       update_run (p_store (after_create_run p uuid graph_id initial_state))
         uuid (run_state st);
     p_registry := registry st;
     p_world := world st |}.

(** The graph with another edge mapping. *)
Definition with_edges (edges' : gmap string edge) (graph : GraphDefinition)
  : GraphDefinition :=
  {| graph_id := graph_id graph; nodes := nodes graph; edges := edges';
     metadata := metadata graph |}.

(** A proper jump target: a non-empty name that [handle_next_action] does
    not read as an instruction of its own. *)
Definition jump_target (name : string) : Prop :=
  truthy name = true ∧ name ≠ "repeat" ∧ startswith name "goto:" = false.

(** [f] answers every invocation with a jump to [name]. *)
Definition always_goto (f : node_func) (name : string) : Prop :=
  ∀ s w, ∃ w', f s w = (Returned (RStr ("goto:" +:+ name)), w').


Section Vocabulary.

Variable import_function : string → string + node_func.

(** [path] resolves to [f] in registry [reg]. *)
Definition resolves (reg : ToolRegistry) (path : string) (f : node_func)
  : Prop :=
  ∃ reg', load_from_path import_function reg path = (inr f, reg').

(** The five ways through [loop_body]. *)
Inductive pass (self : WorkflowEngine) (graph : GraphDefinition)
    (st : LoopState) : control → Prop :=
  | pass_no_current :
      current st = None →
      pass self graph st (Break (on_run (set_status "completed") (entered st)))
  | pass_missing cur :
      current st = Some cur →
      truthy_opt (nodes_get (nodes graph) cur) = false →
      pass self graph st
        (Raise (ValueError
                  ("Node '" +:+ cur +:+ "' not found in graph definition"))
               (entered st))
  | pass_unresolved cur path e reg :
      current st = Some cur →
      nodes_get (nodes graph) cur = Some path →
      truthy path = true →
      load_from_path import_function (registry st) path = (inl e, reg) →
      pass self graph st
        (Raise (ValueError
                  ("Failed to load node function '" +:+ path +:+ "': " +:+ str e))
               (set_registry reg (entered st)))
  | pass_raised cur path f reg e w :
      current st = Some cur →
      nodes_get (nodes graph) cur = Some path →
      truthy path = true →
      load_from_path import_function (registry st) path = (inr f, reg) →
      execute_node cur f (state (run_state st)) (world st) = (inl e, w) →
      pass self graph st
        (Raise e
           (set_world w
              (on_run (set_current_node (Some cur))
                 (set_registry reg (entered st)))))
  | pass_invoked cur path f reg state' next_action w :
      current st = Some cur →
      nodes_get (nodes graph) cur = Some path →
      truthy path = true →
      load_from_path import_function (registry st) path = (inr f, reg) →
      execute_node cur f (state (run_state st)) (world st)
        = (inr (state', next_action), w) →
      pass self graph st
        (handle_next_action self graph cur next_action
           (after_invocation st cur state' reg w)).

(** The nodes of [C] are declared, resolve to plain nodes, and have their
    first successor in [C]. *)
Definition closed_under_edges (graph : GraphDefinition) (reg : ToolRegistry)
    (C : string → Prop) : Prop :=
  ∀ n, C n →
    ∃ path f m,
      nodes_get (nodes graph) n = Some path ∧ truthy path = true ∧
      resolves reg path f ∧ plain_node f ∧
      successor graph n = Some m ∧ C m.

End Vocabulary.

(** ** Example nodes, graphs and process *)

(** Graph and run ids, written as [str] gives a UUID. *)
Definition failing_id : string := "00000000-0000-4000-8000-000000000001".
Definition cycle_id : string := "00000000-0000-4000-8000-000000000002".
Definition repeating_id : string := "00000000-0000-4000-8000-000000000003".
Definition named_repeat_id : string := "00000000-0000-4000-8000-000000000004".
Definition self_goto_id : string := "00000000-0000-4000-8000-000000000005".
Definition nested_id : string := "00000000-0000-4000-8000-000000000006".
Definition branching_id : string := "00000000-0000-4000-8000-000000000007".

(** The id [uuid4()] draws for the run of the examples. *)
Definition example_uuid : string := "00000000-0000-4000-8000-0000000000aa".

(** A process with no importable module: every path that is not registered
    fails to load. *)
Definition no_modules : string → string + node_func :=
  λ path, inl ("No module named '" +:+ path +:+ "'").

Definition returning (r : py_result) : node_func :=
  λ _ w, (Returned r, w).

Definition raising (msg : string) : node_func :=
  λ _ w, (Raised msg, w).

(** [state["items"].append(v)], returning [None]: the list is reached
    through the state copy and changed in place. *)
Definition append_to_items (v : value) : node_func :=
  λ s w,
    match s !! "items" with
    | Some (VRef l) =>
        match heap w !! l with
        | Some (OList items) =>
            (Returned ROther,
             {| heap := <[l := OList (items ++ [v])]> (heap w); now := now w |})
        | _ => (Raised "'dict' object has no attribute 'append'", w)
        end
    | _ => (Raised "'items'", w)
    end.

Definition example_registry : ToolRegistry :=
  {| tools :=
       {[ "nodes.plain" := returning (RDict ∅);
          "nodes.set_n" := returning (RDict {[ "n" := VInt 1 ]});
          "nodes.repeat" := returning (RStr "repeat");
          "nodes.boom" := raising "boom";
          "nodes.goto_repeat" := returning (RStr "goto:repeat");
          "nodes.goto_a" := returning (RStr "goto:a");
          "nodes.append" := append_to_items (VInt 2) ]} |}.

(** [a → b], [b] raising. *)
Definition failing_graph : GraphDefinition :=
  {| graph_id := failing_id;
     nodes := [("a", "nodes.plain"); ("b", "nodes.boom")];
     edges := {[ "a" := EStr "b" ]};
     metadata := None |}.

(** [a → b → a]. *)
Definition cycle_graph : GraphDefinition :=
  {| graph_id := cycle_id;
     nodes := [("a", "nodes.plain"); ("b", "nodes.set_n")];
     edges := {[ "a" := EStr "b"; "b" := EList ["a"] ]};
     metadata := None |}.

Definition repeat_graph : GraphDefinition :=
  {| graph_id := repeating_id;
     nodes := [("a", "nodes.repeat")];
     edges := {[ "a" := EStr "b" ]};
     metadata := None |}.

(** A node whose name is [repeat], jumping to itself. *)
Definition named_repeat_graph : GraphDefinition :=
  {| graph_id := named_repeat_id;
     nodes := [("repeat", "nodes.goto_repeat")];
     edges := ∅;
     metadata := None |}.

Definition self_goto_graph : GraphDefinition :=
  {| graph_id := self_goto_id;
     nodes := [("a", "nodes.goto_a")];
     edges := ∅;
     metadata := None |}.

(** [a → b], [b] appending to the list under [items]. *)
Definition nested_graph : GraphDefinition :=
  {| graph_id := nested_id;
     nodes := [("a", "nodes.plain"); ("b", "nodes.append")];
     edges := {[ "a" := EStr "b" ]};
     metadata := None |}.

Definition branching_graph : GraphDefinition :=
  {| graph_id := branching_id;
     nodes :=
       [("a", "nodes.plain"); ("b", "nodes.plain"); ("c", "nodes.plain")];
     edges := {[ "a" := EList ["b"; "c"] ]};
     metadata := None |}.

Definition example_store : MemoryStore :=
  {| graphs :=
       {[ failing_id := failing_graph;
          cycle_id := cycle_graph;
          repeating_id := repeat_graph;
          named_repeat_id := named_repeat_graph;
          self_goto_id := self_goto_graph;
          nested_id := nested_graph;
          branching_id := branching_graph ]};
     runs := ∅ |}.

(** The caller's [initial_state] of the nested example, [{"items": [1]}],
    and the heap holding its list. *)
Definition nested_initial_state : dict := {[ "items" := VRef 1%positive ]}.

Definition example_world : World :=
  {| heap := {[ 1%positive := OList [VInt 1] ]}; now := 0 |}.

Definition example_process : Process :=
  {| p_store := example_store;
     p_registry := example_registry;
     p_world := example_world |}.

(** A call on the example process, with fuel beyond the iteration cap. *)
Definition example_run (graph_id : string) (initial_state : dict)
    (start_node : option string) : option ((exn + RunState) * Process) :=
  execute_graph no_modules engine 1001 example_process example_uuid graph_id
    initial_state start_node.

(** The loop state in which such a call enters its [try]. *)
Definition example_loop_state (graph_id start : string) (initial_state : dict)
  : LoopState :=
  initial_loop_state (created_run example_uuid graph_id initial_state) start
    example_registry example_world.

(** The run a call returned, if it returned one. *)
Definition returned_run (res : option ((exn + RunState) * Process))
  : option RunState :=
  match res with
  | Some (inr run, _) => Some run
  | _ => None
  end.

(** The process a call left behind. *)
Definition process_after (res : option ((exn + RunState) * Process))
  : option Process :=
  snd <$> res.

(** The names and statuses of a log, in order. *)
Definition log_summary (l : list ExecutionLogEntry) : list (string * string) :=
  (λ e, (node_name e, entry_status e)) <$> l.

(** ** The rest of memory_store.py *)

(** [str(graph_def.graph_id)] is the [graph_id] field itself: ids are kept
    as strings. *)
Definition create_graph (self : MemoryStore) (graph_def : GraphDefinition)
  : string * MemoryStore :=
  let graph_id_str := graph_id graph_def in
  (graph_id_str,
   {| graphs := <[graph_id_str := graph_def]> (graphs self);
      runs := runs self |}).

(** [self._graphs.copy()]: a mapping of its own with the same items. *)
Definition list_graphs (self : MemoryStore) : gmap string GraphDefinition :=
  graphs self.

Definition list_runs (self : MemoryStore) : gmap string RunState :=
  runs self.

Definition delete_run (self : MemoryStore) (run_id : string)
  : bool * MemoryStore :=
  if bool_decide (is_Some (runs self !! run_id)) then
    (true, {| graphs := graphs self; runs := delete run_id (runs self) |})
  else (false, self).

(** ** The rest of registry.py *)

(** What [register] is handed: a coroutine function, or any other object
    ([inspect.iscoroutinefunction] tells them apart). *)
Inductive py_callable :=
  | CoroutineFunction (func : node_func)
  | OtherCallable.

(** [register] raises before it writes: an error leaves the registry as it
    was. *)
Definition register (self : ToolRegistry) (name : string) (func : py_callable)
  : exn + ToolRegistry :=
  match func with
  | OtherCallable =>
      inl (ValueError ("Tool '" +:+ name +:+ "' must be an async function"))
  | CoroutineFunction f => inr {| tools := <[name := f]> (tools self) |}
  end.

Definition get (self : ToolRegistry) (name : string) : option node_func :=
  tools self !! name.

Definition clear (self : ToolRegistry) : ToolRegistry :=
  {| tools := ∅ |}.

(** ** graph_endpoints.py *)

(** The request and response models of models.py; their fields carry a
    prefix where the name is taken by a field of [RunState] or
    [GraphDefinition]. *)
Record CreateGraphRequest := {
  request_nodes : list (string * string);
  request_edges : gmap string edge;
  request_metadata : option dict;
}.

Record CreateGraphResponse := {
  response_graph_id : string;
}.

Record RunGraphRequest := {
  request_graph_id : string;
  request_initial_state : dict;
  request_start_node : option string;
}.

Record RunGraphResponse := {
  response_run_id : string;
  final_state : dict;
  response_log : list ExecutionLogEntry;
  response_status : string;
}.

Record RunStateResponse := {
  state_run_id : string;
  state_state : dict;
  state_log : list ExecutionLogEntry;
  state_status : string;
  state_current_node : option string;
  state_error : option string;
}.

(** [fastapi.HTTPException] *)
Record HTTPException := {
  status_code : nat;
  detail : string;
}.

(** The values of the dictionaries that [list_graphs] and [list_runs]
    answer with. *)
Record GraphSummary := {
  summary_graph_id : string;
  summary_nodes : list string;
  summary_edges : gmap string edge;
  summary_metadata : option dict;
}.

Record RunSummary := {
  summary_run_id : string;
  summary_run_graph_id : string;
  summary_status : string;
  summary_current_node : option string;
  log_length : nat;
}.

Module graph_endpoints.

(** [uuid] is the id drawn by [uuid4()].  Nothing in the [try] raises on a
    request that passed validation, so the handler always answers. *)
Definition create_graph (store : MemoryStore) (uuid : string)
    (request : CreateGraphRequest) : CreateGraphResponse * MemoryStore :=
  let graph_def :=
    {| graph_id := uuid; nodes := request_nodes request;
       edges := request_edges request;
       metadata := request_metadata request |} in
  let '(graph_id_str, store) := create_graph store graph_def in
  ({| response_graph_id := graph_id_str |}, store).

(** The handler calls the global [engine].  [entry.dict()] and the
    validation of the response give each entry back field by field. *)
Definition run_graph (import_function : string → string + node_func)
    (fuel : nat) (p : Process) (uuid : string) (request : RunGraphRequest)
  : option ((HTTPException + RunGraphResponse) * Process) :=
  match get_graph (p_store p) (request_graph_id request) with
  | None =>
      Some (inl {| status_code := 404;
                   detail := "Graph '" +:+ request_graph_id request
                             +:+ "' not found" |},
            p)
  | Some graph =>
      match execute_graph import_function engine fuel p uuid
              (request_graph_id request) (request_initial_state request)
              (request_start_node request) with
      | None => None
      | Some (inr run_state, p) =>
          Some (inr {| response_run_id := run_id run_state;
                       final_state := state run_state;
                       response_log := log run_state;
                       response_status := status run_state |},
                p)
      | Some (inl (ValueError e), p) =>
          Some (inl {| status_code := 400; detail := e |}, p)
      | Some (inl e, p) =>
          Some (inl {| status_code := 500;
                       detail := "Failed to execute graph: " +:+ str e |},
                p)
      end
  end.

Definition get_run_state (store : MemoryStore) (run_id' : string)
  : HTTPException + RunStateResponse :=
  match get_run store run_id' with
  | None =>
      inl {| status_code := 404;
             detail := "Run '" +:+ run_id' +:+ "' not found" |}
  | Some run_state =>
      inr {| state_run_id := run_id run_state;
             state_state := state run_state;
             state_log := log run_state;
             state_status := status run_state;
             state_current_node := current_node run_state;
             state_error := error run_state |}
  end.

Definition list_graphs (store : MemoryStore) : gmap string GraphSummary :=
  (λ graph_def,
     {| summary_graph_id := graph_id graph_def;
        summary_nodes := (nodes graph_def).*1;
        summary_edges := edges graph_def;
        summary_metadata := metadata graph_def |})
  <$> list_graphs store.

Definition list_runs (store : MemoryStore) : gmap string RunSummary :=
  (λ run_state,
     {| summary_run_id := run_id run_state;
        summary_run_graph_id := run_graph_id run_state;
        summary_status := status run_state;
        summary_current_node := current_node run_state;
        log_length := length (log run_state) |})
  <$> list_runs store.

End graph_endpoints.

(** ** Further examples *)


(** The cycle graph under the same id, its edges taken away. *)
Definition cut_cycle_graph : GraphDefinition := with_edges ∅ cycle_graph.

(** The example store with a run under the example id. *)
Definition store_with_run : MemoryStore :=
  (create_run example_store example_uuid cycle_id ∅).2.

Definition failing_request : RunGraphRequest :=
  {| request_graph_id := failing_id; request_initial_state := ∅;
     request_start_node := None |}.



Definition empty_graph_request : CreateGraphRequest :=
  {| request_nodes := []; request_edges := ∅; request_metadata := None |}.

(** ** Vocabulary of the further properties *)

(** Every entry has status completed. *)
Definition all_completed (l : list ExecutionLogEntry) : Prop :=
  Forall (λ entry, entry_status entry = "completed") l.

(** The state and every snapshot have the keys of [keys], and no snapshot
    has a key that the state lacks. *)
Definition keeps_keys (keys : gset string) (r : RunState) : Prop :=
  keys ⊆ dom (state r) ∧
  Forall (λ snapshot, keys ⊆ dom snapshot ∧ dom snapshot ⊆ dom (state r))
    (state_snapshot <$> log r).

(** [rest] is the way the edges lead from [n]: each node's first successor
    is the next one, and the last node has none. *)
Fixpoint follows (graph : GraphDefinition) (n : string) (rest : list string)
  : Prop :=
  match rest with
  | [] => successor graph n = None
  | m :: rest' => successor graph n = Some m ∧ follows graph m rest'
  end.

(** [n] is declared, and its path resolves in [reg] to a plain node. *)
Definition runnable (import_function : string → string + node_func)
    (graph : GraphDefinition) (reg : ToolRegistry) (n : string) : Prop :=
  ∃ path f,
    nodes_get (nodes graph) n = Some path ∧ truthy path = true ∧
    resolves import_function reg path f ∧ plain_node f.

(** ** Properties *)

Section Properties.

Variable import_function : string → string + node_func.

Abbreviation load_from_path := (load_from_path import_function).
Abbreviation loop_body := (loop_body import_function).
Abbreviation while_loop := (while_loop import_function).
Abbreviation traversal := (traversal import_function).
Abbreviation resolves := (resolves import_function).
Abbreviation pass := (pass import_function).
Abbreviation closed_under_edges := (closed_under_edges import_function).
Abbreviation execute_graph := (execute_graph import_function).

(** *** [state.update] *)

Lemma dict_update_lookup (state result : dict) (k : string) :
  dict_update state result !! k =
    match result !! k with
    | Some v => Some v
    | None => state !! k
    end.
Proof.
  unfold dict_update.
  apply (map_fold_weak_ind
           (λ acc m, acc !! k = match m !! k with
                                | Some v => Some v
                                | None => state !! k
                                end)).
  - by rewrite lookup_empty.
  - intros i x m acc Hfresh IH.
    destruct (decide (i = k)) as [->|Hne].
    + by rewrite !lookup_insert_eq.
    + by rewrite !lookup_insert_ne.
Qed.

Lemma dict_update_union (state result : dict) :
  dict_update state result = result ∪ state.
Proof.
  apply map_eq. intros k. rewrite dict_update_lookup, lookup_union.
  destruct (result !! k), (state !! k); done.
Qed.


(** *** One pass through the loop body *)

Lemma truthy_opt_false_not_repeat (next_action : option string) :
  truthy_opt next_action = false → next_action ≠ Some "repeat".
Proof. by intros H ->. Qed.

Lemma handle_next_action_edges self graph cur next_action st :
  truthy_opt next_action = false →
  handle_next_action self graph cur next_action st =
    match edges graph !! cur with
    | None => Break (on_run (set_status "completed") st)
    | Some (EStr next_nodes) =>
        Continue (set_loop_count 0 (set_current (Some next_nodes) st))
    | Some (EList (first :: _)) =>
        Continue (set_loop_count 0 (set_current (Some first) st))
    | Some (EList []) => Break (on_run (set_status "completed") st)
    end.
Proof.
  intros Hfalsy. unfold handle_next_action, get_next_nodes.
  rewrite bool_decide_eq_false_2
    by by apply truthy_opt_false_not_repeat.
  by rewrite Hfalsy.
Qed.

(** The body up to the log append, for a node that resolves and returns. *)
Lemma loop_body_invoked self graph st cur path f reg' state' next_action w' :
  current st = Some cur →
  nodes_get (nodes graph) cur = Some path →
  truthy path = true →
  load_from_path (registry st) path = (inr f, reg') →
  execute_node cur f (state (run_state st)) (world st)
    = (inr (state', next_action), w') →
  loop_body self graph st =
    handle_next_action self graph cur next_action
      (after_invocation st cur state' reg' w').
Proof.
  intros Hcur Hpath Htruthy Hload Hexec. unfold loop_body. simpl.
  rewrite Hcur, Hpath. simpl. rewrite Htruthy. simpl.
  rewrite Hload. simpl. rewrite Hexec.
  unfold after_invocation, set_visited_nodes, on_run, set_world, set_registry,
    set_iteration_count, set_state, set_log, set_current_node. simpl.
  by rewrite Hcur.
Qed.

(** C6: when the node gives no control-flow instruction and its edge entry
    is a non-empty list, the next node is the head of the list and the loop
    counter is 0, whatever the run state holds. *)
Theorem branching_takes_first_successor self graph st cur path f reg'
    state' next_action w' first rest :
  current st = Some cur →
  nodes_get (nodes graph) cur = Some path →
  truthy path = true →
  load_from_path (registry st) path = (inr f, reg') →
  execute_node cur f (state (run_state st)) (world st)
    = (inr (state', next_action), w') →
  truthy_opt next_action = false →
  edges graph !! cur = Some (EList (first :: rest)) →
  ∃ st', loop_body self graph st = Continue st' ∧
         current st' = Some first ∧ loop_count st' = 0.
Proof.
  intros Hcur Hpath Htruthy Hload Hexec Hfalsy Hedge.
  rewrite (loop_body_invoked _ _ _ _ _ _ _ _ _ _ Hcur Hpath Htruthy Hload Hexec).
  rewrite handle_next_action_edges by done.
  rewrite Hedge. eauto.
Qed.

(** *** Before the loop *)

Lemma execute_graph_unknown_graph self fuel p uuid graph_id initial_state
    start_node :
  get_graph (p_store p) graph_id = None →
  execute_graph self fuel p uuid graph_id initial_state start_node =
    Some (inl (ValueError ("Graph '" +:+ graph_id +:+ "' not found")), p).
Proof. intros Hget. unfold execute_graph. by rewrite Hget. Qed.

Lemma execute_graph_start_fails self fuel p uuid graph_id initial_state
    start_node graph e :
  get_graph (p_store p) graph_id = Some graph →
  starting_node graph start_node = inl e →
  execute_graph self fuel p uuid graph_id initial_state start_node =
    Some (inl e, after_create_run p uuid graph_id initial_state).
Proof.
  intros Hget Hstart. unfold execute_graph. rewrite Hget. simpl.
  unfold get_run. simpl. rewrite lookup_insert_eq. by rewrite Hstart.
Qed.

Lemma starting_node_undeclared graph s :
  truthy s = true →
  nodes_contains (nodes graph) s = false →
  starting_node graph (Some s) =
    inl (ValueError ("Start node '" +:+ s +:+ "' not found in graph")).
Proof.
  intros Htruthy Hnot. unfold starting_node. simpl.
  by rewrite Htruthy, Hnot.
Qed.

(** C7, amended: with a non-empty [start_node] that is not a declared node
    name, the run record is in the store when the validation error is
    raised, with an empty log and status running; with an unknown graph id
    the not-found error is raised and the process is left as it was. *)
Theorem undeclared_start_node_after_create_run self fuel p uuid graph_id
    initial_state :
  (∀ graph s,
     get_graph (p_store p) graph_id = Some graph →
     truthy s = true →
     nodes_contains (nodes graph) s = false →
     ∃ p',
       execute_graph self fuel p uuid graph_id initial_state (Some s) =
         Some (inl (ValueError ("Start node '" +:+ s +:+ "' not found in graph")),
               p') ∧
       get_run (p_store p') uuid
         = Some (created_run uuid graph_id initial_state) ∧
       log (created_run uuid graph_id initial_state) = []) ∧
  (∀ start_node,
     get_graph (p_store p) graph_id = None →
     execute_graph self fuel p uuid graph_id initial_state start_node =
       Some (inl (ValueError ("Graph '" +:+ graph_id +:+ "' not found")), p)).
Proof.
  split.
  - intros graph s Hget Htruthy Hnot.
    exists (after_create_run p uuid graph_id initial_state).
    split; [|split; [|done]].
    + apply execute_graph_start_fails with graph; [done|].
      by apply starting_node_undeclared.
    + unfold get_run. simpl. by rewrite lookup_insert_eq.
  - intros start_node Hget. by apply execute_graph_unknown_graph.
Qed.

(** A call only writes the run of the uuid it drew. *)
Lemma execute_graph_other_runs self fuel p uuid graph_id initial_state
    start_node res p' other :
  execute_graph self fuel p uuid graph_id initial_state start_node
    = Some (res, p') →
  other ≠ uuid →
  get_run (p_store p') other = get_run (p_store p) other.
Proof.
  unfold execute_graph, get_run. intros Hrun Hne.
  destruct (get_graph (p_store p) graph_id) as [graph|];
    [|by simplify_eq].
  simpl in Hrun. rewrite lookup_insert_eq in Hrun.
  destruct (starting_node graph start_node) as [e|current_node].
  { simplify_eq. simpl. by rewrite lookup_insert_ne. }
  destruct (traversal _ _ _ _) as [st|]; [|done].
  simplify_eq. simpl. by rewrite !lookup_insert_ne.
Qed.

(** C9: when the start node cannot be determined, the error leaves
    [execute_graph] as a raised exception, and the store holds the run as
    [create_run] made it: status running, empty log, no current node, no
    error.  No later call that draws another uuid changes it. *)
Theorem start_failure_leaves_run_running self fuel p uuid graph_id
    initial_state start_node graph e :
  get_graph (p_store p) graph_id = Some graph →
  starting_node graph start_node = inl e →
  ∃ p' run,
    execute_graph self fuel p uuid graph_id initial_state start_node
      = Some (inl e, p') ∧
    get_run (p_store p') uuid = Some run ∧
    status run = "running" ∧ log run = [] ∧
    current_node run = None ∧ error run = None ∧
    ∀ self2 fuel2 uuid2 graph_id2 initial_state2 start_node2 res p'',
      execute_graph self2 fuel2 p' uuid2 graph_id2 initial_state2 start_node2
        = Some (res, p'') →
      uuid2 ≠ uuid →
      get_run (p_store p'') uuid = Some run.
Proof.
  intros Hget Hstart.
  exists (after_create_run p uuid graph_id initial_state),
         (created_run uuid graph_id initial_state).
  assert (Hstored :
    get_run (p_store (after_create_run p uuid graph_id initial_state)) uuid
      = Some (created_run uuid graph_id initial_state)).
  { unfold get_run. simpl. by rewrite lookup_insert_eq. }
  split; [by apply execute_graph_start_fails with graph|].
  repeat (split; [done|]).
  intros self2 fuel2 uuid2 graph_id2 initial_state2 start_node2 res p''
    Hlater Hne.
  rewrite <- Hstored.
  by apply (execute_graph_other_runs _ _ _ _ _ _ _ _ _ _ Hlater).
Qed.

(** *** The shape of one pass *)

Lemma loop_body_pass self graph st : pass self graph st (loop_body self graph st).
Proof.
  destruct (current st) as [cur|] eqn:Hcur.
  2:{ unfold loop_body. simpl. rewrite Hcur. by constructor. }
  destruct (truthy_opt (nodes_get (nodes graph) cur)) eqn:Htruthy.
  2:{ unfold loop_body. simpl. rewrite Hcur. simpl. rewrite Htruthy. simpl.
      by constructor. }
  destruct (nodes_get (nodes graph) cur) as [path|] eqn:Hpath; [|done].
  simpl in Htruthy.
  destruct (load_from_path (registry st) path) as [[e|f] reg] eqn:Hload.
  { unfold loop_body. simpl. rewrite Hcur, Hpath. simpl. rewrite Htruthy. simpl.
    rewrite Hload. by eapply pass_unresolved. }
  destruct (execute_node cur f (state (run_state st)) (world st))
    as [[e|[state' next_action]] w] eqn:Hexec.
  { unfold loop_body. simpl. rewrite Hcur, Hpath. simpl. rewrite Htruthy. simpl.
    rewrite Hload. simpl. rewrite Hexec. by eapply pass_raised. }
  erewrite loop_body_invoked by done. by eapply pass_invoked.
Qed.

(** What [handle_next_action] leaves alone. *)
Lemma handle_next_action_frame self graph cur next_action st :
  let st' := control_state (handle_next_action self graph cur next_action st) in
  log (run_state st') = log (run_state st) ∧
  state (run_state st') = state (run_state st) ∧
  error (run_state st') = error (run_state st) ∧
  current_node (run_state st') = current_node (run_state st) ∧
  iteration_count st' = iteration_count st ∧
  registry st' = registry st ∧
  world st' = world st.
Proof.
  unfold handle_next_action, get_next_nodes.
  case_bool_decide; [by case_bool_decide|].
  destruct (truthy_opt next_action && _); [done|].
  destruct (truthy_opt next_action); [done|].
  by destruct (edges graph !! cur) as [[m|[|m ms]]|].
Qed.

Lemma handle_next_action_status self graph cur next_action st :
  match handle_next_action self graph cur next_action st with
  | Break st' => status (run_state st') = "completed"
  | Continue st' | Raise _ st' => status (run_state st') = status (run_state st)
  end.
Proof.
  unfold handle_next_action, get_next_nodes.
  case_bool_decide; [by case_bool_decide|].
  destruct (truthy_opt next_action && _); [done|].
  destruct (truthy_opt next_action); [done|].
  by destruct (edges graph !! cur) as [[m|[|m ms]]|].
Qed.

(** Every pass counts once. *)
Lemma loop_body_iteration_count self graph st :
  iteration_count (control_state (loop_body self graph st))
    = iteration_count st + 1.
Proof.
  destruct (loop_body_pass self graph st); try done.
  pose proof (handle_next_action_frame self graph cur next_action
                (after_invocation st cur state' reg w)) as Hframe.
  simpl in Hframe. by destruct Hframe as (_ & _ & _ & _ & -> & _).
Qed.

(** A pass appends at most one entry; a pass that continues appends
    exactly one. *)
Lemma loop_body_log self graph st :
  let c := loop_body self graph st in
  log (run_state (control_state c)) = log (run_state st) ∧
    (∀ st', c ≠ Continue st') ∨
  ∃ cur entry,
    current st = Some cur ∧
    log (run_state (control_state c)) = (log (run_state st) ++ [entry])%list ∧
    node_name entry = cur ∧
    state_snapshot entry = state (run_state (control_state c)) ∧
    entry_status entry = "completed".
Proof.
  simpl. destruct (loop_body_pass self graph st); try (by left).
  right.
  pose proof (handle_next_action_frame self graph cur next_action
                (after_invocation st cur state' reg w)) as Hframe.
  simpl in Hframe. destruct Hframe as (Hlog & Hstate & _).
  eexists cur, _. rewrite Hlog, Hstate. simpl. done.
Qed.

(** The status is set by [break] alone; the error is never set in the
    body. *)
Lemma loop_body_status self graph st :
  match loop_body self graph st with
  | Break st' => status (run_state st') = "completed"
  | Continue st' | Raise _ st' => status (run_state st') = status (run_state st)
  end.
Proof.
  destruct (loop_body_pass self graph st); try done.
  apply (handle_next_action_status self graph cur next_action
           (after_invocation st cur state' reg w)).
Qed.

(** *** The loop *)

(** The loop ends within [max_iterations - iteration_count + 1] tests of
    its condition. *)
Lemma while_loop_terminates self graph fuel st :
  max_iterations self - iteration_count st < fuel →
  is_Some (while_loop self graph fuel st).
Proof.
  revert st. induction fuel as [|fuel IH]; intros st Hfuel; [lia|].
  simpl. case_bool_decide as Hlt; [|by eexists].
  pose proof (loop_body_iteration_count self graph st) as Hcount.
  destruct (loop_body self graph st) as [st'|st'|e st']; [|by eexists..].
  simpl in Hcount. apply IH. lia.
Qed.

Lemma while_loop_fuel_mono self graph fuel fuel' st x :
  while_loop self graph fuel st = Some x →
  fuel ≤ fuel' →
  while_loop self graph fuel' st = Some x.
Proof.
  revert fuel' st. induction fuel as [|fuel IH]; intros fuel' st Hrun Hle;
    [done|].
  destruct fuel' as [|fuel']; [lia|]. simpl in *.
  case_bool_decide; [|done].
  destruct (loop_body self graph st); [|done..].
  apply IH; [done|lia].
Qed.

(** The counter never passes the cap. *)
Lemma while_loop_iteration_count self graph fuel st x :
  while_loop self graph fuel st = Some x →
  iteration_count st ≤ max_iterations self →
  iteration_count st ≤ iteration_count (exit_state x) ≤ max_iterations self.
Proof.
  revert st. induction fuel as [|fuel IH]; intros st Hrun Hle; [done|].
  simpl in Hrun. case_bool_decide as Hlt; [|by simplify_eq].
  pose proof (loop_body_iteration_count self graph st) as Hcount.
  destruct (loop_body self graph st) as [st'|st'|e st']; simpl in Hcount.
  - apply IH in Hrun; lia.
  - simplify_eq. simpl. lia.
  - simplify_eq. simpl. lia.
Qed.

(** The loop only appends to the log, one entry per pass at most. *)
Lemma while_loop_log self graph fuel st x :
  while_loop self graph fuel st = Some x →
  log (run_state st) `prefix_of` log (run_state (exit_state x)) ∧
  length (log (run_state (exit_state x))) + iteration_count st
    ≤ length (log (run_state st)) + iteration_count (exit_state x).
Proof.
  revert st. induction fuel as [|fuel IH]; intros st Hrun; [done|].
  simpl in Hrun. case_bool_decide as Hlt; [|by simplify_eq].
  pose proof (loop_body_iteration_count self graph st) as Hcount.
  assert (log (run_state st)
            `prefix_of` log (run_state (control_state (loop_body self graph st)))
          ∧ length (log (run_state (control_state (loop_body self graph st))))
              ≤ length (log (run_state st)) + 1) as [Hpre Hlen].
  { destruct (loop_body_log self graph st)
      as [[-> _]|(cur & entry & _ & -> & _)].
    - split; [done|lia].
    - split; [by apply prefix_app_r|]. rewrite length_app. simpl. lia. }
  destruct (loop_body self graph st) as [st'|st'|e st']; simpl in *.
  - apply IH in Hrun as [Hpre' Hlen']. split; [by etrans|lia].
  - simplify_eq. simpl. split; [done|lia].
  - simplify_eq. simpl. split; [done|lia].
Qed.

(** How the status and the error stand when the loop ends. *)
Lemma while_loop_status self graph fuel st x :
  while_loop self graph fuel st = Some x →
  match x with
  | Completed st' =>
      status (run_state st') = "completed"
  | Exhausted st' =>
      status (run_state st') = "failed" ∧
      error (run_state st') = Some (max_iterations_message self) ∧
      log (run_state st') = log (run_state st) ∨
      status (run_state st') = "failed" ∧
      error (run_state st') = Some (max_iterations_message self)
  | Aborted _ _ => True
  end.
Proof.
  revert st. induction fuel as [|fuel IH]; intros st Hrun; [done|].
  simpl in Hrun. case_bool_decide as Hlt.
  2:{ simplify_eq. by left. }
  pose proof (loop_body_status self graph st) as Hstatus.
  destruct (loop_body self graph st) as [st'|st'|e st'].
  - apply IH in Hrun. destruct x; [done| |done].
    destruct Hrun as [(?&?&?)|(?&?)]; by right.
  - by simplify_eq.
  - by simplify_eq.
Qed.

(** *** After the loop *)

Lemma fmap_alter_invariant {A B} (g : A → B) (f : A → A) (i : nat)
    (l : list A) :
  (∀ x, g (f x) = g x) → g <$> alter f i l = g <$> l.
Proof.
  intros Hg. revert i. induction l as [|x l IH]; intros [|i]; csimpl; [done..| |].
  - by rewrite Hg.
  - by rewrite IH.
Qed.

Lemma handle_error_spec e st :
  let r := run_state (handle_error e st) in
  status r = "failed" ∧
  error r = Some (str e) ∧
  current_node r = None ∧
  state r = state (run_state st) ∧
  (∃ entry, last (log r) = Some entry ∧ entry_status entry = "error") ∧
  match log (run_state st) with
  | [] =>
      log r =
        [{| node_name :=
              if truthy_opt (current st) then default "" (current st)
              else "unknown";
            state_snapshot := state (run_state st);
            timestamp := now (world st);
            entry_status := "error" |}]
  | entries =>
      length (log r) = length entries ∧
      node_name <$> log r = node_name <$> entries ∧
      state_snapshot <$> log r = state_snapshot <$> entries
  end.
Proof.
  unfold handle_error. simpl.
  destruct (log (run_state st)) as [|e0 es] eqn:Hlog; simpl.
  { rewrite Hlog. simpl. repeat (split; [done|]). split; [|done]. by eexists. }
  rewrite ?Hlog. simpl. repeat (split; [done|]).
  set (entries := e0 :: es).
  set (altered := alter (set_entry_status "error") (length es - 0) entries).
  assert (length altered = length entries) as Hlen by apply length_alter.
  split.
  - rewrite last_lookup, Hlen. unfold altered. simpl.
    replace (length es - 0) with (length es) by lia.
    rewrite list_lookup_alter_eq.
    destruct (entries !! length es) as [entry|] eqn:Hentry.
    + eexists. split; [done|done].
    + apply lookup_ge_None in Hentry. simpl in Hentry. lia.
  - split; [done|]. split.
    + by apply (fmap_alter_invariant node_name _ _ (e0 :: es)).
    + by apply (fmap_alter_invariant state_snapshot _ _ (e0 :: es)).
Qed.

Lemma finish_world x : world (finish x) = world (exit_state x).
Proof.
  destruct x as [st|st|e st]; try done.
  unfold finish, handle_error. simpl.
  by destruct (log (run_state st)).
Qed.

(** *** The registry cache *)

(** Loading a path never changes what another path resolves to. *)
Lemma load_from_path_keeps_resolved reg q res reg1 path f :
  load_from_path reg q = (res, reg1) →
  resolves reg path f →
  resolves reg1 path f.
Proof.
  unfold resolves, load_from_path. intros Hq [reg' Hp].
  destruct (tools reg !! q) as [h|] eqn:Hcached; [simplify_eq; eauto|].
  destruct (import_function q) as [msg|h] eqn:Himport; [simplify_eq; eauto|].
  simplify_eq. simpl. destruct (decide (q = path)) as [->|Hne].
  - rewrite lookup_insert_eq. rewrite Hcached, Himport in Hp.
    simplify_eq. eauto.
  - rewrite lookup_insert_ne by done.
    destruct (tools reg !! path); [simplify_eq; eauto|].
    destruct (import_function path); simplify_eq; eauto.
Qed.

Lemma loop_body_keeps_resolved self graph st path f :
  resolves (registry st) path f →
  resolves (registry (control_state (loop_body self graph st))) path f.
Proof.
  intros Hres. destruct (loop_body_pass self graph st); simpl; try done.
  - by eapply load_from_path_keeps_resolved.
  - by eapply load_from_path_keeps_resolved.
  - pose proof (handle_next_action_frame self graph cur next_action
                  (after_invocation st cur state' reg w)) as Hframe.
    simpl in Hframe. destruct Hframe as (_ & _ & _ & _ & _ & -> & _).
    by eapply load_from_path_keeps_resolved.
Qed.

(** *** Runs that never leave the loop *)

(** If every pass from a state satisfying [I] continues into such a state,
    the loop ends by its [else], one log entry per pass later. *)
Lemma while_loop_exhausts self graph (I : LoopState → Prop) :
  (∀ st, I st → ∃ st', loop_body self graph st = Continue st' ∧ I st') →
  ∀ fuel st,
    I st →
    iteration_count st ≤ max_iterations self →
    max_iterations self - iteration_count st < fuel →
    ∃ st',
      while_loop self graph fuel st = Some (Exhausted st') ∧
      status (run_state st') = "failed" ∧
      error (run_state st') = Some (max_iterations_message self) ∧
      length (log (run_state st'))
        = length (log (run_state st))
          + (max_iterations self - iteration_count st).
Proof.
  intros Hstep. induction fuel as [|fuel IH]; intros st HI Hle Hfuel; [lia|].
  simpl. case_bool_decide as Hlt.
  2:{ eexists. split; [done|]. simpl. repeat (split; [done|]). lia. }
  destruct (Hstep st HI) as (st1 & Hbody & HI1).
  pose proof (loop_body_iteration_count self graph st) as Hcount.
  pose proof (loop_body_log self graph st) as Hlog.
  rewrite Hbody in *. simpl in Hcount, Hlog.
  destruct Hlog as [[_ Hno]|(cur & entry & _ & Hlog & _)];
    [by destruct (Hno st1)|].
  destruct (IH st1 HI1) as (st' & Hrun & Hstatus & Herror & Hlen); [lia..|].
  exists st'. repeat (split; [done|]).
  rewrite Hlen, Hlog, length_app. simpl. lia.
Qed.

Lemma execute_node_plain node_name f s w r w' :
  f s w = (Returned r, w') →
  no_control_flow r →
  ∃ s', execute_node node_name f s w = (inr (s', None), w').
Proof.
  intros Hf Hplain. unfold execute_node. rewrite Hf.
  destruct r as [d|str|]; [by eexists| |by eexists].
  destruct Hplain as [Hne Hprefix].
  rewrite decide_False by done. rewrite Hprefix. by eexists.
Qed.

Lemma cycle_pass self graph C st :
  (∃ n, current st = Some n ∧ C n) ∧ closed_under_edges graph (registry st) C →
  ∃ st', loop_body self graph st = Continue st' ∧
    ((∃ n, current st' = Some n ∧ C n) ∧
     closed_under_edges graph (registry st') C).
Proof.
  intros [(n & Hcur & Hn) Hclosed].
  destruct (Hclosed n Hn)
    as (path & f & m & Hpath & Htruthy & [reg' Hload] & Hplain & Hsucc & Hm).
  destruct (Hplain (state (run_state st)) (world st)) as (r & w' & Hf & Hr).
  destruct (execute_node_plain n f _ _ _ _ Hf Hr) as [s' Hexec].
  assert (∀ st', loop_body self graph st = Continue st' →
                 closed_under_edges graph (registry st') C) as Hkeep.
  { intros st' Hbody k Hk.
    destruct (Hclosed k Hk) as (pk & fk & mk & ? & ? & Hres & ?).
    exists pk, fk, mk. repeat (split; [done|]). split; [|done].
    pose proof (loop_body_keeps_resolved self graph st pk fk Hres) as Hres'.
    by rewrite Hbody in Hres'. }
  rewrite (loop_body_invoked _ _ _ _ _ _ _ _ _ _ Hcur Hpath Htruthy Hload Hexec)
    in *.
  rewrite handle_next_action_edges in * by done.
  unfold successor in Hsucc.
  destruct (edges graph !! n) as [[t|[|t ts]]|]; simplify_eq;
    (eexists; split; [done|]; split; [by eexists|by apply Hkeep]).
Qed.

(** *** [execute_graph] and its [try] *)

Lemma execute_graph_traversal self fuel p uuid graph_id initial_state
    start_node graph start :
  get_graph (p_store p) graph_id = Some graph →
  starting_node graph start_node = inr start →
  execute_graph self fuel p uuid graph_id initial_state start_node =
    match traversal self graph fuel
            (initial_loop_state (created_run uuid graph_id initial_state)
               start (p_registry p) (p_world p)) with
    | Some st =>
        Some (inr (run_state st),
              after_traversal p uuid graph_id initial_state st)
    | None => None
    end.
Proof.
  intros Hget Hstart. unfold execute_graph. rewrite Hget. simpl.
  unfold get_run. simpl. rewrite lookup_insert_eq. by rewrite Hstart.
Qed.

(** Every run that [execute_graph] returns is the outcome of its [try]. *)
Lemma execute_graph_returned self fuel p uuid graph_id initial_state
    start_node run p' :
  execute_graph self fuel p uuid graph_id initial_state start_node
    = Some (inr run, p') →
  ∃ graph start st,
    get_graph (p_store p) graph_id = Some graph ∧
    starting_node graph start_node = inr start ∧
    traversal self graph fuel
      (initial_loop_state (created_run uuid graph_id initial_state)
         start (p_registry p) (p_world p)) = Some st ∧
    run = run_state st ∧
    p' = after_traversal p uuid graph_id initial_state st.
Proof.
  intros Hrun.
  destruct (get_graph (p_store p) graph_id) as [graph|] eqn:Hget.
  2:{ by rewrite execute_graph_unknown_graph in Hrun. }
  destruct (starting_node graph start_node) as [e|start] eqn:Hstart.
  { erewrite execute_graph_start_fails in Hrun by done. by simplify_eq. }
  erewrite execute_graph_traversal in Hrun by done.
  destruct (traversal _ _ _ _) as [st|] eqn:Htrav; [|done].
  simplify_eq. by exists graph, start, st.
Qed.

(** The loop reaches one and the same exit with any fuel beyond the
    iterations it has left. *)
Lemma while_loop_total self graph st :
  ∃ x, ∀ fuel,
    max_iterations self - iteration_count st < fuel →
    while_loop self graph fuel st = Some x.
Proof.
  destruct (while_loop_terminates self graph
              (S (max_iterations self - iteration_count st)) st) as [x Hx];
    [lia|].
  exists x. intros fuel Hfuel.
  apply (while_loop_fuel_mono _ _ _ _ _ _ Hx). lia.
Qed.

Lemma finish_log_length x :
  length (log (run_state (finish x)))
    ≤ 1 `max` length (log (run_state (exit_state x))).
Proof.
  destruct x as [st|st|e st]; simpl; [lia..|].
  pose proof (handle_error_spec e st) as (_ & _ & _ & _ & _ & Hlog).
  destruct (log (run_state st)) as [|e0 es].
  - rewrite Hlog. simpl. lia.
  - destruct Hlog as [-> _]. lia.
Qed.

Lemma engine_max_iterations_message :
  max_iterations_message engine = "Maximum iterations (1000) exceeded".
Proof. reflexivity. Qed.

Lemma engine_loop_limit_message :
  loop_limit_message engine = "Loop iteration limit (100) exceeded".
Proof. reflexivity. Qed.

(** C4: the loop of [execute_graph] makes at most 1000 passes, each of them
    invoking at most one node and appending at most one log entry, so every
    call returns ([fuel] beyond 1000 never runs out) with at most 1000 log
    entries; and on a set of plain nodes closed under the edges (a cycle)
    the run fails on the iteration limit with exactly 1000 entries. *)
Theorem iteration_cap_bounds_every_run :
  (∀ graph run current_node reg w,
     ∃ x,
       (∀ fuel, 1000 < fuel →
          while_loop engine graph fuel
            (initial_loop_state run current_node reg w) = Some x) ∧
       iteration_count (exit_state x) ≤ 1000 ∧
       length (log (run_state (exit_state x)))
         ≤ length (log run) + iteration_count (exit_state x)) ∧
  (∀ p uuid graph_id initial_state start_node,
     ∃ res p',
       (∀ fuel, 1000 < fuel →
          execute_graph engine fuel p uuid graph_id initial_state start_node
            = Some (res, p')) ∧
       ∀ run, res = inr run → length (log run) ≤ 1000) ∧
  (∀ (C : string → Prop) p uuid graph_id initial_state start_node graph
     start fuel,
     get_graph (p_store p) graph_id = Some graph →
     starting_node graph start_node = inr start →
     C start →
     closed_under_edges graph (p_registry p) C →
     1000 < fuel →
     ∃ run p',
       execute_graph engine fuel p uuid graph_id initial_state start_node
         = Some (inr run, p') ∧
       status run = "failed" ∧
       error run = Some "Maximum iterations (1000) exceeded" ∧
       length (log run) = 1000).
Proof.
  assert (∀ graph run current_node reg w,
     ∃ x,
       (∀ fuel, 1000 < fuel →
          while_loop engine graph fuel
            (initial_loop_state run current_node reg w) = Some x) ∧
       iteration_count (exit_state x) ≤ 1000 ∧
       length (log (run_state (exit_state x)))
         ≤ length (log run) + iteration_count (exit_state x)) as Hloop.
  { intros graph run current_node reg w.
    destruct (while_loop_total engine graph
                (initial_loop_state run current_node reg w)) as [x Hx].
    exists x. split.
    { intros fuel Hfuel. apply Hx. simpl. lia. }
    assert (while_loop engine graph 1001
              (initial_loop_state run current_node reg w) = Some x) as Hrun.
    { apply Hx. simpl. lia. }
    pose proof (while_loop_iteration_count _ _ _ _ _ Hrun) as Hcount.
    pose proof (while_loop_log _ _ _ _ _ Hrun) as [_ Hlen].
    simpl in Hcount, Hlen. split; lia. }
  split; [done|]. split.
  - intros p uuid graph_id initial_state start_node.
    destruct (get_graph (p_store p) graph_id) as [graph|] eqn:Hget.
    2:{ eexists _, _. split.
        - intros fuel _. by apply execute_graph_unknown_graph.
        - done. }
    destruct (starting_node graph start_node) as [e|start] eqn:Hstart.
    { eexists _, _. split.
      - intros fuel _. by eapply execute_graph_start_fails.
      - done. }
    destruct (Hloop graph (created_run uuid graph_id initial_state) start
                (p_registry p) (p_world p)) as (x & Hx & Hcount & Hlen).
    exists (inr (run_state (finish x))),
           (after_traversal p uuid graph_id initial_state (finish x)).
    split.
    + intros fuel Hfuel. erewrite execute_graph_traversal by done.
      unfold traversal. by rewrite (Hx fuel Hfuel).
    + intros run [= <-]. pose proof (finish_log_length x). simpl in Hlen. lia.
  - intros C p uuid graph_id initial_state start_node graph start fuel
      Hget Hstart Hin Hclosed Hfuel.
    destruct (while_loop_exhausts engine graph
                (λ st, (∃ n, current st = Some n ∧ C n) ∧
                       closed_under_edges graph (registry st) C)
                (cycle_pass engine graph C) fuel
                (initial_loop_state (created_run uuid graph_id initial_state)
                   start (p_registry p) (p_world p)))
      as (st' & Hrun & Hstatus & Herror & Hlen).
    { split; [by eexists|done]. }
    { simpl. lia. }
    { simpl. lia. }
    eexists _, _. split.
    { erewrite execute_graph_traversal by done.
      unfold traversal. rewrite Hrun. done. }
    simpl. done.
Qed.

(** *** [repeat] *)

Lemma execute_node_repeat node_name f s w w' :
  f s w = (Returned (RStr "repeat"), w') →
  execute_node node_name f s w = (inr (s, Some "repeat"), w').
Proof. intros Hf. unfold execute_node. by rewrite Hf. Qed.

Lemma repeat_pass self graph st cur path f reg' w' :
  current st = Some cur →
  nodes_get (nodes graph) cur = Some path →
  truthy path = true →
  load_from_path (registry st) path = (inr f, reg') →
  f (state (run_state st)) (world st) = (Returned (RStr "repeat"), w') →
  loop_body self graph st =
    let st1 :=
      set_loop_count (loop_count st + 1)
        (after_invocation st cur (state (run_state st)) reg' w') in
    if bool_decide (max_loop_iterations self ≤ loop_count st + 1) then
      Raise (RuntimeError (loop_limit_message self)) st1
    else Continue st1.
Proof.
  intros Hcur Hpath Htruthy Hload Hf.
  by rewrite (loop_body_invoked _ _ _ _ _ _ _ _ _ _ Hcur Hpath Htruthy Hload
                (execute_node_repeat cur _ _ _ _ Hf)).
Qed.

(** A node that keeps returning [repeat] until the loop counter reaches
    the cap, with iterations enough left for that, ends the loop with the
    loop-limit error. *)
Lemma while_loop_repeats self graph cur path f :
  nodes_get (nodes graph) cur = Some path →
  truthy path = true →
  ∀ k fuel st,
    current st = Some cur →
    resolves (registry st) path f →
    loop_count st + S k = max_loop_iterations self →
    iteration_count st + S k ≤ max_iterations self →
    repeats f (S k) (state (run_state st)) (world st) →
    S k ≤ fuel →
    ∃ st',
      while_loop self graph fuel st
        = Some (Aborted (RuntimeError (loop_limit_message self)) st') ∧
      length (log (run_state st')) = length (log (run_state st)) + S k.
Proof.
  intros Hpath Htruthy. induction k as [|k IH];
    intros fuel st Hcur Hres Hloop Hiter (w' & Hf & Hrep) Hfuel;
    (destruct fuel as [|fuel]; [lia|]);
    pose proof Hres as [reg' Hload];
    simpl; rewrite bool_decide_eq_true_2 by lia;
    rewrite (repeat_pass _ _ _ _ _ _ _ _ Hcur Hpath Htruthy Hload Hf); simpl.
  - rewrite bool_decide_eq_true_2 by lia. eexists. split; [done|].
    simpl. by rewrite length_app.
  - rewrite bool_decide_eq_false_2 by lia.
    edestruct (IH fuel) as (st' & Hrun & Hlen); last first.
    { exists st'. split; [exact Hrun|]. rewrite Hlen. simpl.
      rewrite length_app. simpl. lia. }
    all: simpl; try done; try lia.
    by eapply load_from_path_keeps_resolved.
Qed.

Lemma traversal_repeats self graph st cur path f fuel :
  current st = Some cur →
  nodes_get (nodes graph) cur = Some path →
  truthy path = true →
  resolves (registry st) path f →
  loop_count st < max_loop_iterations self →
  iteration_count st + (max_loop_iterations self - loop_count st)
    ≤ max_iterations self →
  repeats f (max_loop_iterations self - loop_count st)
    (state (run_state st)) (world st) →
  max_loop_iterations self - loop_count st ≤ fuel →
  ∃ st',
    traversal self graph fuel st = Some st' ∧
    status (run_state st') = "failed" ∧
    error (run_state st') = Some (loop_limit_message self) ∧
    ∃ entry, last (log (run_state st')) = Some entry ∧
             entry_status entry = "error".
Proof.
  intros Hcur Hpath Htruthy Hres Hloop Hiter Hrep Hfuel.
  destruct (max_loop_iterations self - loop_count st) as [|k] eqn:Hk; [lia|].
  destruct (while_loop_repeats self graph cur path f Hpath Htruthy
              k fuel st) as (st1 & Hrun & _); try done; [lia|].
  pose proof (handle_error_spec (RuntimeError (loop_limit_message self)) st1)
    as (Hstatus & Herror & _ & _ & Hlast & _).
  exists (handle_error (RuntimeError (loop_limit_message self)) st1).
  unfold traversal. rewrite Hrun. done.
Qed.

Lemma execute_graph_repeats self p uuid graph_id initial_state start_node
    graph start path f fuel :
  0 < max_loop_iterations self ≤ max_iterations self →
  get_graph (p_store p) graph_id = Some graph →
  starting_node graph start_node = inr start →
  nodes_get (nodes graph) start = Some path →
  truthy path = true →
  resolves (p_registry p) path f →
  repeats f (max_loop_iterations self) initial_state (p_world p) →
  max_loop_iterations self ≤ fuel →
  ∃ run p',
    execute_graph self fuel p uuid graph_id initial_state start_node
      = Some (inr run, p') ∧
    status run = "failed" ∧
    error run = Some (loop_limit_message self) ∧
    ∃ entry, last (log run) = Some entry ∧ entry_status entry = "error".
Proof.
  intros Hcaps Hget Hstart Hpath Htruthy Hres Hrep Hfuel.
  destruct (traversal_repeats self graph
              (initial_loop_state (created_run uuid graph_id initial_state)
                 start (p_registry p) (p_world p)) start path f fuel)
    as (st' & Hrun & Hrest); try done; simpl.
  { lia. }
  { lia. }
  { by rewrite Nat.sub_0_r. }
  { lia. }
  eexists _, _. erewrite execute_graph_traversal by done.
  rewrite Hrun. done.
Qed.

Lemma repeat_below_cap self graph st cur path f w' :
  current st = Some cur →
  nodes_get (nodes graph) cur = Some path →
  truthy path = true →
  resolves (registry st) path f →
  f (state (run_state st)) (world st) = (Returned (RStr "repeat"), w') →
  loop_count st + 1 < max_loop_iterations self →
  ∃ st',
    loop_body self graph st = Continue st' ∧
    current st' = Some cur ∧
    loop_count st' = loop_count st + 1 ∧
    ∀ edges', loop_body self (with_edges edges' graph) st = Continue st'.
Proof.
  intros Hcur Hpath Htruthy [reg' Hload] Hf Hcap.
  eexists. split; [|split; [|split]].
  - rewrite (repeat_pass _ _ _ _ _ _ _ _ Hcur Hpath Htruthy Hload Hf).
    simpl. by rewrite bool_decide_eq_false_2 by lia.
  - done.
  - done.
  - intros edges'.
    rewrite (repeat_pass self (with_edges edges' graph) _ _ _ _ _ _
               Hcur Hpath Htruthy Hload Hf).
    simpl. by rewrite bool_decide_eq_false_2 by lia.
Qed.

Lemma engine_caps : 0 < max_loop_iterations engine ≤ max_iterations engine.
Proof. split; apply Nat.ltb_lt + apply Nat.leb_le; reflexivity. Qed.

(** C3: a node that returns [repeat] until the loop counter reaches 100
    (the invocations fitting under the iteration cap) ends the run failed,
    with the loop-limit message and a last log entry of status error, from
    any point of a run and so from its start; and below the cap a [repeat]
    keeps the current node and gives the same pass whatever the edges. *)
Theorem repeat_reaches_loop_limit :
  (∀ graph st cur path f fuel,
     current st = Some cur →
     nodes_get (nodes graph) cur = Some path →
     truthy path = true →
     resolves (registry st) path f →
     loop_count st < 100 →
     iteration_count st + (100 - loop_count st) ≤ 1000 →
     repeats f (100 - loop_count st) (state (run_state st)) (world st) →
     100 - loop_count st ≤ fuel →
     ∃ st',
       traversal engine graph fuel st = Some st' ∧
       status (run_state st') = "failed" ∧
       error (run_state st') = Some "Loop iteration limit (100) exceeded" ∧
       ∃ entry, last (log (run_state st')) = Some entry ∧
                entry_status entry = "error") ∧
  (∀ p uuid graph_id initial_state start_node graph start path f fuel,
     get_graph (p_store p) graph_id = Some graph →
     starting_node graph start_node = inr start →
     nodes_get (nodes graph) start = Some path →
     truthy path = true →
     resolves (p_registry p) path f →
     repeats f 100 initial_state (p_world p) →
     100 ≤ fuel →
     ∃ run p',
       execute_graph engine fuel p uuid graph_id initial_state start_node
         = Some (inr run, p') ∧
       status run = "failed" ∧
       error run = Some "Loop iteration limit (100) exceeded" ∧
       ∃ entry, last (log run) = Some entry ∧ entry_status entry = "error") ∧
  (∀ self graph st cur path f w',
     current st = Some cur →
     nodes_get (nodes graph) cur = Some path →
     truthy path = true →
     resolves (registry st) path f →
     f (state (run_state st)) (world st) = (Returned (RStr "repeat"), w') →
     loop_count st + 1 < max_loop_iterations self →
     ∃ st',
       loop_body self graph st = Continue st' ∧
       current st' = Some cur ∧
       loop_count st' = loop_count st + 1 ∧
       ∀ edges', loop_body self (with_edges edges' graph) st = Continue st').
Proof.
  split; [|split].
  - exact (traversal_repeats engine).
  - intros p uuid graph_id initial_state start_node graph start path f fuel.
    exact (execute_graph_repeats engine p uuid graph_id initial_state
             start_node graph start path f fuel engine_caps).
  - exact repeat_below_cap.
Qed.

(** *** [goto:] to the node itself *)

Lemma execute_node_goto node_name f s w target w' :
  f s w = (Returned (RStr ("goto:" +:+ target)), w') →
  execute_node node_name f s w = (inr (s, Some target), w').
Proof.
  intros Hf. unfold execute_node. rewrite Hf.
  rewrite decide_False by done.
  unfold startswith. simpl. by destruct target.
Qed.

Lemma handle_next_action_jump self graph cur target st :
  jump_target target →
  handle_next_action self graph cur (Some target) st =
    Continue (set_loop_count 0 (set_current (Some target) st)).
Proof.
  intros (Htruthy & Hrepeat & Hprefix). unfold handle_next_action.
  assert (Some target ≠ Some "repeat") as Hne by (intros [= Heq]; done).
  rewrite (bool_decide_eq_false_2 _ Hne).
  change (default "" (Some target)) with target.
  change (truthy_opt (Some target)) with (truthy target).
  by rewrite Htruthy, Hprefix.
Qed.

Lemma self_goto_pass self graph st name path f reg' w' :
  jump_target name →
  current st = Some name →
  nodes_get (nodes graph) name = Some path →
  truthy path = true →
  load_from_path (registry st) path = (inr f, reg') →
  f (state (run_state st)) (world st)
    = (Returned (RStr ("goto:" +:+ name)), w') →
  loop_body self graph st =
    Continue (set_loop_count 0
                (set_current (Some name)
                   (after_invocation st name (state (run_state st)) reg' w'))).
Proof.
  intros Htarget Hcur Hpath Htruthy Hload Hf.
  rewrite (loop_body_invoked _ _ _ _ _ _ _ _ _ _ Hcur Hpath Htruthy Hload
             (execute_node_goto name _ _ _ _ _ Hf)).
  by apply handle_next_action_jump.
Qed.

Lemma traversal_self_goto self graph st name path f fuel :
  jump_target name →
  current st = Some name →
  nodes_get (nodes graph) name = Some path →
  truthy path = true →
  resolves (registry st) path f →
  always_goto f name →
  iteration_count st ≤ max_iterations self →
  max_iterations self - iteration_count st < fuel →
  ∃ st',
    traversal self graph fuel st = Some st' ∧
    status (run_state st') = "failed" ∧
    error (run_state st') = Some (max_iterations_message self) ∧
    length (log (run_state st'))
      = length (log (run_state st))
        + (max_iterations self - iteration_count st).
Proof.
  intros Htarget Hcur Hpath Htruthy Hres Hgoto Hle Hfuel.
  destruct (while_loop_exhausts self graph
              (λ st, current st = Some name ∧ resolves (registry st) path f))
    with (fuel := fuel) (st := st) as (st' & Hrun & Hrest); try done.
  { clear dependent st. intros st [Hcur [reg' Hload]].
    destruct (Hgoto (state (run_state st)) (world st)) as [w' Hf].
    eexists. split.
    { by eapply self_goto_pass. }
    split; [done|]. simpl.
    eapply load_from_path_keeps_resolved; [done|by eexists]. }
  exists (finish (Exhausted st')). unfold traversal. rewrite Hrun.
  done.
Qed.

(** C10, amended: for a node whose name is non-empty, is not [repeat] and
    does not start with [goto:], returning [goto:] and its own name counts
    as a node change: the pass continues on the same node with the loop
    counter back at 0, whatever it was; and a node that always does so
    runs until the iteration cap, the run failing with the iteration-limit
    message after one log entry per remaining iteration. *)
Theorem self_goto_resets_loop_count :
  (∀ self graph st name path f w',
     jump_target name →
     current st = Some name →
     nodes_get (nodes graph) name = Some path →
     truthy path = true →
     resolves (registry st) path f →
     f (state (run_state st)) (world st)
       = (Returned (RStr ("goto:" +:+ name)), w') →
     ∃ st',
       loop_body self graph st = Continue st' ∧
       current st' = Some name ∧ loop_count st' = 0) ∧
  (∀ graph st name path f fuel,
     jump_target name →
     current st = Some name →
     nodes_get (nodes graph) name = Some path →
     truthy path = true →
     resolves (registry st) path f →
     always_goto f name →
     iteration_count st ≤ 1000 →
     1000 - iteration_count st < fuel →
     ∃ st',
       traversal engine graph fuel st = Some st' ∧
       status (run_state st') = "failed" ∧
       error (run_state st') = Some "Maximum iterations (1000) exceeded" ∧
       length (log (run_state st'))
         = length (log (run_state st)) + (1000 - iteration_count st)).
Proof.
  split.
  - intros self graph st name path f w' Htarget Hcur Hpath Htruthy
      [reg' Hload] Hf.
    eexists. split; [by eapply self_goto_pass|done].
  - exact (traversal_self_goto engine).
Qed.

(** *** The abort paths *)






(** *** Snapshots *)

Lemma fmap_prefix_of {A B} (f : A → B) (l1 l2 : list A) :
  l1 `prefix_of` l2 → (f <$> l1) `prefix_of` (f <$> l2).
Proof. intros [k ->]. exists (f <$> k). by rewrite fmap_app. Qed.

Lemma finish_snapshots x :
  (state_snapshot <$> log (run_state (exit_state x)))
    `prefix_of` (state_snapshot <$> log (run_state (finish x))) ∧
  (node_name <$> log (run_state (exit_state x)))
    `prefix_of` (node_name <$> log (run_state (finish x))).
Proof.
  destruct x as [st|st|e st]; simpl; [done..|].
  pose proof (handle_error_spec e st) as (_ & _ & _ & _ & _ & Hlog).
  destruct (log (run_state st)) as [|e0 es].
  - split; apply prefix_nil.
  - destruct Hlog as (_ & -> & ->). done.
Qed.

(** C8, amended: [create_run] gives the run the caller's mapping key by
    key, holding the very same values (a shallow copy); the entry a pass
    appends holds, key by key, the state as it is right after the node
    ran; and no later pass, nor the handler, changes the names or the
    key-to-value mappings of the entries already in the log. *)
Theorem snapshots_are_shallow_copies :
  (∀ store uuid graph_id initial_state,
     ∃ run,
       get_run (create_run store uuid graph_id initial_state).2 uuid
         = Some run ∧
       state run = initial_state ∧ log run = [] ∧
       status run = "running") ∧
  (∀ self graph st,
     let st' := control_state (loop_body self graph st) in
     log (run_state st') = log (run_state st) ∨
     ∃ cur entry,
       current st = Some cur ∧
       log (run_state st') = log (run_state st) ++ [entry] ∧
       node_name entry = cur ∧
       state_snapshot entry = state (run_state st')) ∧
  (∀ self graph fuel st st',
     traversal self graph fuel st = Some st' →
     (state_snapshot <$> log (run_state st))
       `prefix_of` (state_snapshot <$> log (run_state st')) ∧
     (node_name <$> log (run_state st))
       `prefix_of` (node_name <$> log (run_state st'))).
Proof.
  split; [|split].
  - intros store uuid graph_id initial_state.
    exists (created_run uuid graph_id initial_state).
    unfold get_run. simpl. by rewrite lookup_insert_eq.
  - intros self graph st. simpl.
    destruct (loop_body_log self graph st)
      as [[Hlog _]|(cur & entry & Hcur & Hlog & Hname & Hsnap & _)].
    + by left.
    + right. by exists cur, entry.
  - intros self graph fuel st st' Htraversal. unfold traversal in Htraversal.
    destruct (while_loop self graph fuel st) as [x|] eqn:Hrun; [|done].
    simpl in Htraversal. simplify_eq.
    apply while_loop_log in Hrun as [Hprefix _].
    destruct (finish_snapshots x) as [Hsnap Hname].
    split.
    + etrans; [|exact Hsnap]. by apply fmap_prefix_of.
    + etrans; [|exact Hname]. by apply fmap_prefix_of.
Qed.

End Properties.

(** ** The example runs *)

(** C1: on [a → b] with [b] raising, two nodes are attempted but the log
    has one entry: the failed attempt of [b] gets none, and the entry of
    [a], which succeeded, is the one marked error. *)
Theorem failed_attempt_relabels_previous_entry :
  let res := example_run failing_id ∅ None in
  log_summary ∘ log <$> returned_run res = Some [("a", "error")] ∧
  (returned_run res ≫= error) = Some "Error executing node 'b': boom" ∧
  status <$> returned_run res = Some "failed".
Proof. vm_compute. done. Qed.

(** When [b] is the start node the log is empty at the failure, and the
    handler makes up an entry for the failed attempt itself. *)
Lemma failed_first_attempt_gets_entry :
  log_summary ∘ log <$> returned_run (example_run failing_id ∅ (Some "b"))
    = Some [("b", "error")].
Proof. vm_compute. done. Qed.


(** C7, as stated, fails for the empty string: it is no declared node
    name, yet no validation error is raised and the run completes from the
    first node. *)
Lemma empty_start_node_runs_from_first_node :
  nodes_contains (nodes branching_graph) "" = false ∧
  let res := example_run branching_id ∅ (Some "") in
  status <$> returned_run res = Some "completed" ∧
  log_summary ∘ log <$> returned_run res
    = Some [("a", "completed"); ("b", "completed")].
Proof. vm_compute. done. Qed.

(** C8, as stated, fails for nested values: the entry of [a] holds
    [{"items": [1]}] when it is appended, and the same entry, like the
    caller's mapping, reads [{"items": [1, 2]}] once [b] has appended to
    the list. *)
Lemma nested_mutation_reaches_snapshot_and_input :
  let st0 :=
    initial_loop_state (created_run example_uuid nested_id nested_initial_state)
      "a" example_registry example_world in
  let st1 := control_state (loop_body no_modules engine nested_graph st0) in
  let res := example_run nested_id nested_initial_state None in
  (λ e, read_dict 2 (heap (world st1)) (state_snapshot e))
    <$> last (log (run_state st1))
    = Some {[ "items" := CList [CInt 1] ]} ∧
  (returned_run res ≫= λ r, process_after res ≫= λ p,
     (λ e, read_dict 2 (heap (p_world p)) (state_snapshot e)) <$> log r !! 0)
    = Some {[ "items" := CList [CInt 1; CInt 2] ]} ∧
  read_dict 2 (heap example_world) nested_initial_state
    = {[ "items" := CList [CInt 1] ]} ∧
  (λ p, read_dict 2 (heap (p_world p)) nested_initial_state)
    <$> process_after res
    = Some {[ "items" := CList [CInt 1; CInt 2] ]}.
Proof. split_and!; vm_compute; reflexivity. Qed.

(** C10, as stated, fails for a node named [repeat]: its jump to itself
    is read as the [repeat] instruction, and the run ends on the loop
    limit after 100 entries. *)
Lemma node_named_repeat_reaches_loop_limit :
  let res := example_run named_repeat_id ∅ None in
  nodes named_repeat_graph = [("repeat", "nodes.goto_repeat")] ∧
  (λ f, f ∅ example_world) <$> tools example_registry !! "nodes.goto_repeat"
    = Some (Returned (RStr "goto:repeat"), example_world) ∧
  (returned_run res ≫= error) = Some "Loop iteration limit (100) exceeded" ∧
  status <$> returned_run res = Some "failed" ∧
  length ∘ log <$> returned_run res = Some 100.
Proof. split_and!; vm_compute; reflexivity. Qed.

(** ** The theorems at the example runs *)

Lemma returning_repeats n s w : repeats (returning (RStr "repeat")) n s w.
Proof. induction n as [|n IH]; simpl; [done|]. by exists w. Qed.

Lemma example_resolves path f :
  tools example_registry !! path = Some f →
  resolves no_modules example_registry path f.
Proof.
  intros Hf. exists example_registry. unfold load_from_path. by rewrite Hf.
Qed.


Lemma branching_takes_first_successor_witness :
  ∃ st',
    loop_body no_modules engine branching_graph
      (example_loop_state branching_id "a" ∅) = Continue st' ∧
    current st' = Some "b" ∧ loop_count st' = 0.
Proof.
  apply (branching_takes_first_successor no_modules engine branching_graph
           (example_loop_state branching_id "a" ∅) "a" "nodes.plain"
           (returning (RDict ∅)) example_registry (dict_update ∅ ∅) None
           example_world "b" ["c"]);
    reflexivity.
Defined.

Lemma undeclared_start_node_after_create_run_witness :
  (∃ p',
     example_run branching_id ∅ (Some "zz")
     = Some (inl (ValueError "Start node 'zz' not found in graph"), p') ∧
     get_run (p_store p') example_uuid
       = Some (created_run example_uuid branching_id ∅) ∧
     log (created_run example_uuid branching_id ∅) = []) ∧
  example_run "missing" ∅ None
    = Some (inl (ValueError "Graph 'missing' not found"), example_process).
Proof.
  split.
  - apply (proj1 (undeclared_start_node_after_create_run no_modules engine
                    1001 example_process example_uuid branching_id ∅)
             branching_graph "zz");
      reflexivity.
  - apply (proj2 (undeclared_start_node_after_create_run no_modules engine
                    1001 example_process example_uuid "missing" ∅) None).
    reflexivity.
Defined.

Lemma start_failure_leaves_run_running_witness :
  ∃ p' run,
    example_run branching_id ∅ (Some "zz")
    = Some (inl (ValueError "Start node 'zz' not found in graph"), p') ∧
    get_run (p_store p') example_uuid = Some run ∧
    status run = "running" ∧ log run = [] ∧
    current_node run = None ∧ error run = None ∧
    ∀ self2 fuel2 uuid2 graph_id2 initial_state2 start_node2 res p'',
      execute_graph no_modules self2 fuel2 p' uuid2 graph_id2 initial_state2
        start_node2 = Some (res, p'') →
      uuid2 ≠ example_uuid →
      get_run (p_store p'') example_uuid = Some run.
Proof.
  apply (start_failure_leaves_run_running no_modules engine 1001
           example_process example_uuid branching_id ∅ (Some "zz")
           branching_graph);
    reflexivity.
Defined.

Lemma iteration_cap_bounds_every_run_witness :
  ∃ run p',
    example_run cycle_id ∅ None = Some (inr run, p') ∧
    status run = "failed" ∧
    error run = Some "Maximum iterations (1000) exceeded" ∧
    length (log run) = 1000.
Proof.
  apply (proj2 (proj2 (iteration_cap_bounds_every_run no_modules))
           (λ n, n = "a" ∨ n = "b") example_process example_uuid cycle_id ∅
           None cycle_graph "a" 1001).
  - reflexivity.
  - reflexivity.
  - left. reflexivity.
  - intros n [->| ->].
    + exists "nodes.plain", (returning (RDict ∅)), "b".
      split; [reflexivity|]. split; [reflexivity|].
      split; [apply example_resolves; reflexivity|].
      split; [|split; [reflexivity|right; reflexivity]].
      intros s w. exists (RDict ∅), w. split; [reflexivity|exact I].
    + exists "nodes.set_n", (returning (RDict {[ "n" := VInt 1 ]})), "a".
      split; [reflexivity|]. split; [reflexivity|].
      split; [apply example_resolves; reflexivity|].
      split; [|split; [reflexivity|left; reflexivity]].
      intros s w. exists (RDict {[ "n" := VInt 1 ]}), w.
      split; [reflexivity|exact I].
  - apply Nat.ltb_lt. reflexivity.
Defined.

Lemma repeat_reaches_loop_limit_witness :
  (∃ run p',
     example_run repeating_id ∅ None = Some (inr run, p') ∧
     status run = "failed" ∧
     error run = Some "Loop iteration limit (100) exceeded" ∧
     ∃ entry, last (log run) = Some entry ∧ entry_status entry = "error") ∧
  (∃ st',
     loop_body no_modules engine repeat_graph
       (example_loop_state repeating_id "a" ∅) = Continue st' ∧
     current st' = Some "a" ∧
     loop_count st'
       = loop_count (example_loop_state repeating_id "a" ∅) + 1 ∧
     ∀ edges',
       loop_body no_modules engine (with_edges edges' repeat_graph)
         (example_loop_state repeating_id "a" ∅) = Continue st').
Proof.
  split.
  - apply (proj1 (proj2 (repeat_reaches_loop_limit no_modules))
             example_process example_uuid repeating_id ∅ None repeat_graph "a"
             "nodes.repeat" (returning (RStr "repeat")) 1001).
    + reflexivity.
    + reflexivity.
    + reflexivity.
    + reflexivity.
    + apply example_resolves. reflexivity.
    + apply returning_repeats.
    + apply Nat.leb_le. reflexivity.
  - apply (proj2 (proj2 (repeat_reaches_loop_limit no_modules))
             engine repeat_graph (example_loop_state repeating_id "a" ∅) "a"
             "nodes.repeat" (returning (RStr "repeat")) example_world).
    + reflexivity.
    + reflexivity.
    + reflexivity.
    + apply example_resolves. reflexivity.
    + reflexivity.
    + apply Nat.ltb_lt. reflexivity.
Defined.

Lemma self_goto_resets_loop_count_witness :
  (∃ st',
     loop_body no_modules engine self_goto_graph
       (example_loop_state self_goto_id "a" ∅) = Continue st' ∧
     current st' = Some "a" ∧ loop_count st' = 0) ∧
  (∃ st',
     traversal no_modules engine self_goto_graph 1001
       (example_loop_state self_goto_id "a" ∅) = Some st' ∧
     status (run_state st') = "failed" ∧
     error (run_state st') = Some "Maximum iterations (1000) exceeded" ∧
     length (log (run_state st'))
       = length (log (run_state (example_loop_state self_goto_id "a" ∅)))
         + (1000 - iteration_count (example_loop_state self_goto_id "a" ∅))).
Proof.
  assert (jump_target "a") as Htarget.
  { split; [reflexivity|]. split; [discriminate|reflexivity]. }
  split.
  - apply (proj1 (self_goto_resets_loop_count no_modules)
             engine self_goto_graph (example_loop_state self_goto_id "a" ∅)
             "a" "nodes.goto_a" (returning (RStr "goto:a")) example_world).
    + exact Htarget.
    + reflexivity.
    + reflexivity.
    + reflexivity.
    + apply example_resolves. reflexivity.
    + reflexivity.
  - apply (proj2 (self_goto_resets_loop_count no_modules)
             self_goto_graph (example_loop_state self_goto_id "a" ∅) "a"
             "nodes.goto_a" (returning (RStr "goto:a")) 1001).
    + exact Htarget.
    + reflexivity.
    + reflexivity.
    + reflexivity.
    + apply example_resolves. reflexivity.
    + intros s w. exists w. reflexivity.
    + apply Nat.leb_le. reflexivity.
    + apply Nat.ltb_lt. reflexivity.
Defined.


Lemma snapshots_are_shallow_copies_witness :
  ∃ st',
    traversal no_modules engine nested_graph 1001
      (example_loop_state nested_id "a" nested_initial_state) = Some st' ∧
    let st := example_loop_state nested_id "a" nested_initial_state in
    (state_snapshot <$> log (run_state st))
      `prefix_of` (state_snapshot <$> log (run_state st')) ∧
    (node_name <$> log (run_state st))
      `prefix_of` (node_name <$> log (run_state st')).
Proof.
  assert (∃ st',
            traversal no_modules engine nested_graph 1001
              (example_loop_state nested_id "a" nested_initial_state)
            = Some st')
    as [st' Hrun].
  { vm_compute. eexists. reflexivity. }
  exists st'. split; [exact Hrun|].
  exact (proj2 (proj2 (snapshots_are_shallow_copies no_modules)) engine
           nested_graph 1001
           (example_loop_state nested_id "a" nested_initial_state) st' Hrun).
Defined.

(** ** The store *)

(** X1: a graph filed by [create_graph] is what [get_graph] gives under its
    id, until a graph of the same id is filed, which takes its place (ids
    are not checked for being new); no other graph and no run changes. *)
Theorem create_graph_then_get_graph (store : MemoryStore)
    (g g' : GraphDefinition) :
  graph_id g' = graph_id g →
  let store1 := (create_graph store g).2 in
  let store2 := (create_graph store1 g').2 in
  (create_graph store g).1 = graph_id g ∧
  get_graph store1 (graph_id g) = Some g ∧
  get_graph store2 (graph_id g) = Some g' ∧
  (∀ other, other ≠ graph_id g →
            get_graph store2 other = get_graph store other) ∧
  runs store2 = runs store.
Proof.
  intros Hid. unfold create_graph, get_graph. simpl. rewrite Hid.
  split; [done|]. rewrite !lookup_insert_eq. split; [done|]. split; [done|].
  split; [|done]. intros other Hother. by rewrite !lookup_insert_ne.
Qed.

(** X2: [delete_run] answers whether the run was stored; afterwards the run
    is gone, a second delete answers [False] and changes nothing, and no
    other run and no graph is touched; deleting a run just created under
    an unused id gives back the store as it was. *)
Theorem delete_run_removes_one_run (store : MemoryStore) (run_id : string) :
  let store' := (delete_run store run_id).2 in
  (delete_run store run_id).1 = bool_decide (is_Some (get_run store run_id)) ∧
  get_run store' run_id = None ∧
  delete_run store' run_id = (false, store') ∧
  (∀ other, other ≠ run_id → get_run store' other = get_run store other) ∧
  graphs store' = graphs store ∧
  (get_run store run_id = None →
   ∀ graph_id initial_state,
     delete_run (create_run store run_id graph_id initial_state).2 run_id
       = (true, store)).
Proof.
  unfold delete_run, get_run, create_run. simpl.
  case_bool_decide as Hstored; simpl.
  - split; [done|]. rewrite lookup_delete_eq. split; [done|].
    rewrite bool_decide_eq_false_2 by (by intros [? ?]).
    split; [done|]. split.
    { intros other Hother. by rewrite lookup_delete_ne. }
    split; [done|]. intros Hnone. rewrite Hnone in Hstored.
    by destruct Hstored.
  - assert (runs store !! run_id = None) as Hnone.
    { by destruct (runs store !! run_id); [destruct Hstored; eexists|]. }
    split; [done|]. split; [done|].
    rewrite bool_decide_eq_false_2 by done.
    split; [done|]. split; [done|]. split; [done|].
    intros _ graph_id initial_state.
    rewrite bool_decide_eq_true_2 by (rewrite lookup_insert_eq; by eexists).
    rewrite delete_insert_id by done. by destruct store.
Qed.

(** X3: [update_run] writes without looking: the run it is given is what
    [get_run] then gives, whether the id was stored, never stored, or
    deleted before; of two updates the last one stands; other runs and the
    graphs stay. *)
Theorem update_run_is_an_upsert (store : MemoryStore) (run_id : string)
    (r1 r2 : RunState) :
  get_run (update_run store run_id r1) run_id = Some r1 ∧
  get_run (update_run (delete_run store run_id).2 run_id r1) run_id
    = Some r1 ∧
  update_run (update_run store run_id r1) run_id r2
    = update_run store run_id r2 ∧
  (∀ other, other ≠ run_id →
            get_run (update_run store run_id r1) other = get_run store other) ∧
  graphs (update_run store run_id r1) = graphs store.
Proof.
  unfold update_run, get_run. simpl. rewrite !lookup_insert_eq.
  split; [done|]. split; [done|]. rewrite insert_insert_eq.
  split; [done|]. split; [|done].
  intros other Hother. by rewrite lookup_insert_ne.
Qed.

(** ** The registry *)

(** X4: a coroutine function registered under a name is what [get] and
    [load_from_path] give for that name from then on, with nothing imported
    and the registry left as it is, whatever was registered or cached under
    the name before; no other name changes; and anything that is no
    coroutine function is refused with a [ValueError]. *)
Theorem register_then_load (import_function : string → string + node_func)
    (reg : ToolRegistry) (name : string) (f : node_func) :
  ∃ reg',
    register reg name (CoroutineFunction f) = inr reg' ∧
    get reg' name = Some f ∧
    load_from_path import_function reg' name = (inr f, reg') ∧
    (∀ other, other ≠ name → get reg' other = get reg other) ∧
    register reg name OtherCallable
      = inl (ValueError ("Tool '" +:+ name +:+ "' must be an async function")).
Proof.
  eexists. split; [reflexivity|].
  unfold get, load_from_path. simpl. rewrite lookup_insert_eq.
  split; [done|]. split; [done|]. split; [|done].
  intros other Hother. by rewrite lookup_insert_ne.
Qed.


(** ** Every run *)

Section Runs.

Variable import_function : string → string + node_func.

Abbreviation load_from_path := (load_from_path import_function).
Abbreviation loop_body := (loop_body import_function).
Abbreviation while_loop := (while_loop import_function).
Abbreviation traversal := (traversal import_function).
Abbreviation execute_graph := (execute_graph import_function).
Abbreviation resolves := (resolves import_function).
Abbreviation pass := (pass import_function).
Abbreviation runnable := (runnable import_function).

(** The parts of a run that only [create_run] and the handler write. *)
Lemma handle_next_action_ids self graph cur next_action st :
  let st' := control_state (handle_next_action self graph cur next_action st) in
  run_id (run_state st') = run_id (run_state st) ∧
  run_graph_id (run_state st') = run_graph_id (run_state st) ∧
  (current st' = current st ∨
   ∃ st'', handle_next_action self graph cur next_action st = Continue st'').
Proof.
  unfold handle_next_action, get_next_nodes.
  case_bool_decide; [case_bool_decide; simpl; eauto|].
  destruct (truthy_opt next_action && _); [simpl; eauto|].
  destruct (truthy_opt next_action); [simpl; eauto|].
  destruct (edges graph !! cur) as [[m|[|m ms]]|]; simpl; eauto.
Qed.

Lemma loop_body_run_frame self graph st :
  let st' := control_state (loop_body self graph st) in
  error (run_state st') = error (run_state st) ∧
  run_id (run_state st') = run_id (run_state st) ∧
  run_graph_id (run_state st') = run_graph_id (run_state st).
Proof.
  simpl. destruct (loop_body_pass import_function self graph st); try done.
  pose proof (handle_next_action_frame self graph cur next_action
                (after_invocation st cur state' reg w)) as Hframe.
  pose proof (handle_next_action_ids self graph cur next_action
                (after_invocation st cur state' reg w)) as Hids.
  simpl in Hframe, Hids.
  destruct Hframe as (_ & _ & -> & _). by destruct Hids as (-> & -> & _).
Qed.

Lemma while_loop_run_frame self graph fuel st x :
  while_loop self graph fuel st = Some x →
  run_id (run_state (exit_state x)) = run_id (run_state st) ∧
  run_graph_id (run_state (exit_state x)) = run_graph_id (run_state st) ∧
  match x with
  | Exhausted _ => True
  | Completed st' | Aborted _ st' =>
      error (run_state st') = error (run_state st)
  end.
Proof.
  revert st. induction fuel as [|fuel IH]; intros st Hrun; [done|].
  simpl in Hrun. case_bool_decide; [|by simplify_eq].
  pose proof (loop_body_run_frame self graph st) as (Herror & Hid & Hgid).
  destruct (loop_body self graph st) as [st1|st1|e st1]; simpl in *.
  - apply IH in Hrun as (-> & -> & Hx). repeat (split; [done|]).
    destruct x; [|done|]; congruence.
  - by simplify_eq.
  - by simplify_eq.
Qed.

Lemma finish_ids x :
  run_id (run_state (finish x)) = run_id (run_state (exit_state x)) ∧
  run_graph_id (run_state (finish x))
    = run_graph_id (run_state (exit_state x)) ∧
  state (run_state (finish x)) = state (run_state (exit_state x)) ∧
  registry (finish x) = registry (exit_state x) ∧
  current_node (run_state (finish x)) = None.
Proof.
  destruct x as [st|st|e st]; [done..|].
  simpl. unfold handle_error. simpl. by destruct (log (run_state st)).
Qed.

(** How a [try] that started without an error leaves the run. *)
Lemma traversal_terminal self graph fuel st st' :
  traversal self graph fuel st = Some st' →
  error (run_state st) = None →
  current_node (run_state st') = None ∧
  run_id (run_state st') = run_id (run_state st) ∧
  run_graph_id (run_state st') = run_graph_id (run_state st) ∧
  (status (run_state st') = "completed" ∧ error (run_state st') = None ∨
   status (run_state st') = "failed" ∧ is_Some (error (run_state st'))).
Proof.
  intros Htraversal Hclean. unfold traversal in Htraversal.
  destruct (while_loop self graph fuel st) as [x|] eqn:Hrun; [|done].
  simpl in Htraversal. simplify_eq.
  pose proof (while_loop_run_frame _ _ _ _ _ Hrun) as (Hid & Hgid & Herror).
  pose proof (while_loop_status _ _ _ _ _ _ Hrun) as Hstatus.
  pose proof (finish_ids x) as (-> & -> & _ & _ & ->).
  rewrite Hid, Hgid. repeat (split; [done|]).
  destruct x as [st1|st1|e st1]; simpl in *.
  - left. by rewrite Herror.
  - right. destruct Hstatus as [(-> & -> & _)|(-> & ->)]; by eauto.
  - right. pose proof (handle_error_spec e st1) as (-> & -> & _). by eauto.
Qed.

(** X6: a run that [execute_graph] returns is over: it has no current
    node, it is either completed with no error or failed with an error
    message, and it carries the id drawn for it and the id of its graph. *)
Theorem returned_run_is_terminal self fuel p uuid graph_id initial_state
    start_node run p' :
  execute_graph self fuel p uuid graph_id initial_state start_node
    = Some (inr run, p') →
  current_node run = None ∧
  run_id run = uuid ∧
  run_graph_id run = graph_id ∧
  (status run = "completed" ∧ error run = None ∨
   status run = "failed" ∧ is_Some (error run)).
Proof.
  intros Hcall.
  apply execute_graph_returned in Hcall
    as (graph & start & st & _ & _ & Htraversal & -> & _).
  by apply traversal_terminal in Htraversal.
Qed.


(** *** Statuses of the entries *)

Lemma loop_body_all_completed self graph st :
  all_completed (log (run_state st)) →
  all_completed (log (run_state (control_state (loop_body self graph st)))).
Proof.
  intros Hall.
  destruct (loop_body_log import_function self graph st)
    as [[-> _]|(cur & entry & _ & -> & _ & _ & Hstatus)]; [done|].
  apply Forall_app. split; [done|]. by apply Forall_singleton.
Qed.

Lemma while_loop_all_completed self graph fuel st x :
  while_loop self graph fuel st = Some x →
  all_completed (log (run_state st)) →
  all_completed (log (run_state (exit_state x))).
Proof.
  revert st. induction fuel as [|fuel IH]; intros st Hrun Hall; [done|].
  simpl in Hrun. case_bool_decide; [|by simplify_eq].
  pose proof (loop_body_all_completed self graph st Hall) as Hall'.
  destruct (loop_body self graph st) as [st1|st1|e st1]; simpl in *.
  - by eapply IH.
  - by simplify_eq.
  - by simplify_eq.
Qed.

Lemma handle_error_entries e st :
  all_completed (log (run_state st)) →
  let l := log (run_state (handle_error e st)) in
  (∀ i entry, l !! i = Some entry → S i < length l →
              entry_status entry = "completed") ∧
  (∀ entry, entry ∈ l →
            entry_status entry = "completed" ∨ entry_status entry = "error").
Proof.
  intros Hall. unfold handle_error. simpl.
  destruct (log (run_state st)) as [|e0 es] eqn:Hlog; simpl; rewrite ?Hlog.
  { simpl. split.
    - intros [|i] entry Hi Hlen; simpl in *; lia.
    - intros entry ->%list_elem_of_singleton. by right. }
  simpl. replace (length es - 0) with (length es) by lia.
  set (entries := e0 :: es) in *.
  split.
  - intros i entry Hi Hlen. rewrite length_alter in Hlen. simpl in Hlen.
    rewrite list_lookup_alter_ne in Hi by lia.
    by eapply (Forall_lookup_1 _ _ _ _ Hall).
  - intros entry Hin. apply list_elem_of_lookup in Hin as [i Hi].
    destruct (decide (i = length es)) as [->|Hne].
    + rewrite list_lookup_alter_eq in Hi.
      destruct (entries !! length es); simplify_eq/=. by right.
    + rewrite list_lookup_alter_ne in Hi by done.
      left. by eapply (Forall_lookup_1 _ _ _ _ Hall).
Qed.

(** X8: in the log of a returned run only the last entry can carry status
    error: every entry before it is completed, every entry is completed or
    error, and the log of a completed run has completed entries only. *)
Theorem only_last_entry_may_be_error self fuel p uuid graph_id initial_state
    start_node run p' :
  execute_graph self fuel p uuid graph_id initial_state start_node
    = Some (inr run, p') →
  (∀ i entry, log run !! i = Some entry → S i < length (log run) →
              entry_status entry = "completed") ∧
  (∀ entry, entry ∈ log run →
            entry_status entry = "completed" ∨ entry_status entry = "error") ∧
  (status run = "completed" →
   ∀ entry, entry ∈ log run → entry_status entry = "completed").
Proof.
  intros Hcall.
  apply (execute_graph_returned import_function) in Hcall
    as (graph & start & st & _ & _ & Htraversal & -> & _).
  unfold traversal in Htraversal.
  destruct (while_loop self graph fuel _) as [x|] eqn:Hrun; [|done].
  simpl in Htraversal. simplify_eq.
  pose proof (while_loop_all_completed _ _ _ _ _ Hrun) as Hall.
  specialize (Hall (Forall_nil_2 _)).
  destruct x as [st|st|e st]; simpl in *.
  - split; [|split].
    + intros i entry Hi _. by eapply (Forall_lookup_1 _ _ _ _ Hall).
    + intros entry Hin. left. by eapply (proj1 (Forall_forall _ _) Hall).
    + intros _ entry Hin. by eapply (proj1 (Forall_forall _ _) Hall).
  - split; [|split].
    + intros i entry Hi _. by eapply (Forall_lookup_1 _ _ _ _ Hall).
    + intros entry Hin. left. by eapply (proj1 (Forall_forall _ _) Hall).
    + intros _ entry Hin. by eapply (proj1 (Forall_forall _ _) Hall).
  - pose proof (handle_error_entries e st Hall) as [Hinit Hany].
    split; [done|]. split; [done|].
    pose proof (handle_error_spec e st) as (Hstatus & _).
    intros Hcompleted. by rewrite Hstatus in Hcompleted.
Qed.

(** *** Where the log starts *)

Lemma loop_body_first_entry self graph st cur :
  current st = Some cur →
  match loop_body self graph st with
  | Continue st' | Break st' =>
      ∃ entry, log (run_state st') = log (run_state st) ++ [entry] ∧
               node_name entry = cur
  | Raise _ st' =>
      current st' = Some cur ∧
      (log (run_state st') = log (run_state st) ∨
       ∃ entry, log (run_state st') = log (run_state st) ++ [entry] ∧
                node_name entry = cur)
  end.
Proof.
  intros Hcur.
  destruct (loop_body_pass import_function self graph st)
    as [Hnone|c Hc|c path e reg Hc|c path f reg e w Hc
        |c path f reg s' next_action w Hc];
    [congruence|simplify_eq; simpl; eauto..|].
  simplify_eq.
  pose proof (handle_next_action_frame self graph cur next_action
                (after_invocation st cur s' reg w)) as (Hlog & _).
  pose proof (handle_next_action_ids self graph cur next_action
                (after_invocation st cur s' reg w)) as (_ & _ & Hcurrent).
  simpl in Hlog, Hcurrent.
  destruct (handle_next_action self graph cur next_action _)
    as [st'|st'|e st']; simpl in *; [by eauto..|].
  split; [|by eauto].
  by destruct Hcurrent as [->|[? ?]].
Qed.

Lemma while_loop_names self graph fuel st x :
  while_loop self graph fuel st = Some x →
  (node_name <$> log (run_state st))
    `prefix_of` (node_name <$> log (run_state (finish x))).
Proof.
  intros Hrun.
  apply (while_loop_log import_function) in Hrun as [Hprefix _].
  destruct (finish_snapshots x) as [_ Hname].
  etrans; [|exact Hname]. by apply fmap_prefix_of.
Qed.

Lemma head_of_names_prefix (l : list ExecutionLogEntry) entry :
  (node_name <$> [entry]) `prefix_of` (node_name <$> l) →
  ∃ first, head l = Some first ∧ node_name first = node_name entry.
Proof.
  intros [k Hk]. destruct l as [|first l]; [done|].
  exists first. split; [done|]. by simplify_eq/=.
Qed.

(** X9: with an iteration cap above 0, the log of a returned run is never
    empty, and its first entry is named after the start node; only for a
    start node whose name is the empty string can it be named [unknown]
    instead (when that first attempt fails). *)
Theorem log_starts_at_the_start_node self fuel p uuid graph_id initial_state
    start_node graph start run p' :
  execute_graph self fuel p uuid graph_id initial_state start_node
    = Some (inr run, p') →
  get_graph (p_store p) graph_id = Some graph →
  starting_node graph start_node = inr start →
  0 < max_iterations self →
  ∃ entry,
    head (log run) = Some entry ∧
    (node_name entry = start ∨ start = "" ∧ node_name entry = "unknown").
Proof.
  intros Hcall Hget Hstart Hcap.
  erewrite (execute_graph_traversal import_function) in Hcall by done.
  unfold traversal in Hcall.
  set (st0 := initial_loop_state _ _ _ _) in Hcall.
  destruct (while_loop self graph fuel st0) as [x|] eqn:Hrun; [|done].
  simpl in Hcall. simplify_eq.
  destruct fuel as [|fuel]; [done|]. simpl in Hrun.
  rewrite bool_decide_eq_true_2 in Hrun by done.
  pose proof (loop_body_first_entry self graph st0 start eq_refl) as Hfirst.
  destruct (loop_body self graph st0) as [st1|st1|e st1].
  - destruct Hfirst as (entry & Hlog & Hname).
    apply while_loop_names in Hrun. rewrite Hlog in Hrun.
    apply head_of_names_prefix in Hrun as (first & ? & ?).
    exists first. split; [done|]. left. congruence.
  - simplify_eq. destruct Hfirst as (entry & Hlog & Hname).
    exists entry. simpl. rewrite Hlog. split; [done|by left].
  - simplify_eq. destruct Hfirst as (Hcur & [Hlog|(entry & Hlog & Hname)]).
    + pose proof (handle_error_spec e st1) as (_ & _ & _ & _ & _ & Hsynth).
      rewrite Hlog in Hsynth. simpl in Hsynth.
      change (finish (Aborted e st1)) with (handle_error e st1).
      rewrite Hsynth, Hcur. eexists. split; [done|]. simpl.
      destruct start; [by right|by left].
    + pose proof (finish_snapshots (Aborted e st1)) as [_ Hnames].
      simpl in Hnames. rewrite Hlog in Hnames.
      apply head_of_names_prefix in Hnames as (first & ? & ?).
      exists first. split; [done|]. left. congruence.
Qed.

(** *** The keys of the state *)

Lemma execute_node_keeps_keys node_name f s w s' next_action w' :
  execute_node node_name f s w = (inr (s', next_action), w') →
  dom s ⊆ dom s'.
Proof.
  unfold execute_node.
  destruct (f s w) as [[[d|str|]|msg] w1]; intros Hexec.
  - simplify_eq. rewrite dict_update_union, dom_union_L. set_solver.
  - destruct (decide (str = "repeat")); [by simplify_eq|].
    destruct (startswith str "goto:"); by simplify_eq.
  - by simplify_eq.
  - done.
Qed.

Lemma loop_body_keeps_keys self graph st keys :
  keeps_keys keys (run_state st) →
  keeps_keys keys (run_state (control_state (loop_body self graph st))).
Proof.
  intros [Hstate Hlog].
  destruct (loop_body_pass import_function self graph st)
    as [| | | |cur path f reg s' next_action w _ _ _ _ Hexec];
    [done..|].
  pose proof (handle_next_action_frame self graph cur next_action
                (after_invocation st cur s' reg w)) as (Hl & Hs & _).
  apply execute_node_keeps_keys in Hexec.
  unfold keeps_keys. rewrite Hl, Hs. simpl. split; [set_solver|].
  rewrite fmap_app. apply Forall_app. split.
  - eapply Forall_impl; [exact Hlog|]. intros snapshot [? ?].
    split; [done|]. by etrans.
  - apply Forall_singleton. split; [by etrans|done].
Qed.

Lemma while_loop_keeps_keys self graph fuel st x keys :
  while_loop self graph fuel st = Some x →
  keeps_keys keys (run_state st) →
  keeps_keys keys (run_state (exit_state x)).
Proof.
  revert st. induction fuel as [|fuel IH]; intros st Hrun Hkeys; [done|].
  simpl in Hrun. case_bool_decide; [|by simplify_eq].
  pose proof (loop_body_keeps_keys self graph st keys Hkeys) as Hkeys'.
  destruct (loop_body self graph st) as [st1|st1|e st1]; simpl in *.
  - by eapply IH.
  - by simplify_eq.
  - by simplify_eq.
Qed.

Lemma finish_keeps_keys x keys :
  keeps_keys keys (run_state (exit_state x)) →
  keeps_keys keys (run_state (finish x)).
Proof.
  destruct x as [st|st|e st]; [done..|]. simpl. intros [Hstate Hlog].
  pose proof (handle_error_spec e st) as (_ & _ & _ & Hs & _ & Hl).
  unfold keeps_keys. rewrite Hs. split; [done|].
  destruct (log (run_state st)) as [|e0 es].
  - rewrite Hl. apply Forall_singleton. set_solver.
  - destruct Hl as (_ & _ & ->). done.
Qed.

(** X10: the engine never takes a key out of the state: the state of a
    returned run has every key of the initial state, and so has every
    snapshot in its log, whose keys are in turn keys of the final state. *)
Theorem state_keys_are_never_removed self fuel p uuid graph_id initial_state
    start_node run p' :
  execute_graph self fuel p uuid graph_id initial_state start_node
    = Some (inr run, p') →
  dom initial_state ⊆ dom (state run) ∧
  ∀ entry, entry ∈ log run →
    dom initial_state ⊆ dom (state_snapshot entry) ∧
    dom (state_snapshot entry) ⊆ dom (state run).
Proof.
  intros Hcall.
  apply (execute_graph_returned import_function) in Hcall
    as (graph & start & st & _ & _ & Htraversal & -> & _).
  unfold traversal in Htraversal.
  destruct (while_loop self graph fuel _) as [x|] eqn:Hrun; [|done].
  simpl in Htraversal. simplify_eq.
  apply (while_loop_keeps_keys _ _ _ _ _ (dom initial_state)) in Hrun.
  2:{ split; [done|]. simpl. apply Forall_nil_2. }
  apply finish_keeps_keys in Hrun as [Hstate Hlog].
  split; [done|]. intros entry Hin.
  apply (proj1 (Forall_forall _ _) Hlog).
  apply list_elem_of_fmap. by exists entry.
Qed.

(** *** The target of a [goto:] *)

(** X11: the target of a [goto:] is read a second time by the loop:
    [goto:repeat] is the [repeat] instruction, [goto:] with nothing after
    it is no instruction at all (the edges decide), a target that itself
    starts with [goto:] loses that prefix too, and any other target is the
    next node, declared or not, with the loop counter back at 0. *)
Theorem goto_target_is_read_again self graph st cur path f reg' target w' :
  current st = Some cur →
  nodes_get (nodes graph) cur = Some path →
  truthy path = true →
  load_from_path (registry st) path = (inr f, reg') →
  f (state (run_state st)) (world st)
    = (Returned (RStr ("goto:" +:+ target)), w') →
  let st1 := after_invocation st cur (state (run_state st)) reg' w' in
  loop_body self graph st =
    if decide (target = "repeat") then
      handle_next_action self graph cur (Some "repeat") st1
    else if truthy target then
      Continue
        (set_loop_count 0
           (set_current
              (Some (if startswith target "goto:" then slice_from 5 target
                     else target))
              st1))
    else handle_next_action self graph cur None st1.
Proof.
  intros Hcur Hpath Htruthy Hload Hf. simpl.
  rewrite (loop_body_invoked import_function _ _ _ _ _ _ _ _ _ _
             Hcur Hpath Htruthy Hload (execute_node_goto cur _ _ _ _ _ Hf)).
  destruct (decide (target = "repeat")) as [->|Hrepeat]; [done|].
  unfold handle_next_action at 1.
  rewrite bool_decide_eq_false_2 by congruence.
  change (default "" (Some target)) with target.
  change (truthy_opt (Some target)) with (truthy target).
  destruct (truthy target) eqn:Hnonempty; simpl.
  - by destruct (startswith target "goto:").
  - unfold handle_next_action. by rewrite bool_decide_eq_false_2 by done.
Qed.

(** *** Aborts, one by one *)

Lemma traversal_aborts self graph fuel st e st' :
  loop_body self graph st = Raise e st' →
  iteration_count st < max_iterations self →
  0 < fuel →
  traversal self graph fuel st = Some (handle_error e st').
Proof.
  intros Hbody Hiter Hfuel. destruct fuel as [|fuel]; [lia|].
  unfold traversal. simpl. rewrite bool_decide_eq_true_2 by done.
  by rewrite Hbody.
Qed.

(** The names in the log after the handler: as before, or the one made-up
    entry. *)
Lemma handle_error_names e st :
  node_name <$> log (run_state (handle_error e st)) =
    match log (run_state st) with
    | [] => [if truthy_opt (current st) then default "" (current st)
             else "unknown"]
    | entries => node_name <$> entries
    end.
Proof.
  pose proof (handle_error_spec e st) as (_ & _ & _ & _ & _ & Hlog).
  destruct (log (run_state st)) as [|e0 es].
  - by rewrite Hlog.
  - by destruct Hlog as (_ & -> & _).
Qed.

Lemma handle_error_world e st :
  world (handle_error e st) = world st ∧
  registry (handle_error e st) = registry st.
Proof. unfold handle_error. simpl. by destruct (log (run_state st)). Qed.

(** X12: a node that is reached without being declared, or declared with
    an empty function path, aborts the run there: nothing is invoked, the
    state, the world and the registry stay, the run is failed with the
    not-found message, and the name enters the log only when the log is
    empty. *)
Theorem undeclared_node_aborts_the_run self graph fuel st name :
  current st = Some name →
  truthy_opt (nodes_get (nodes graph) name) = false →
  iteration_count st < max_iterations self →
  0 < fuel →
  ∃ st',
    traversal self graph fuel st = Some st' ∧
    status (run_state st') = "failed" ∧
    error (run_state st')
      = Some ("Node '" +:+ name +:+ "' not found in graph definition") ∧
    state (run_state st') = state (run_state st) ∧
    world st' = world st ∧ registry st' = registry st ∧
    node_name <$> log (run_state st') =
      match log (run_state st) with
      | [] => [if truthy name then name else "unknown"]
      | entries => node_name <$> entries
      end.
Proof.
  intros Hcur Hmissing Hiter Hfuel.
  assert (loop_body self graph st =
            Raise (ValueError ("Node '" +:+ name
                               +:+ "' not found in graph definition"))
                  (entered st)) as Hbody.
  { unfold loop_body. simpl. rewrite Hcur. simpl. by rewrite Hmissing. }
  eexists. split; [by eapply traversal_aborts|].
  pose proof (handle_error_spec
                (ValueError ("Node '" +:+ name
                             +:+ "' not found in graph definition"))
                (entered st)) as (-> & -> & _ & -> & _).
  pose proof (handle_error_world
                (ValueError ("Node '" +:+ name
                             +:+ "' not found in graph definition"))
                (entered st)) as [-> ->].
  rewrite handle_error_names. simpl. by rewrite Hcur.
Qed.



(** *** Straight runs *)

Lemma plain_pass self graph st n :
  current st = Some n →
  runnable graph (registry st) n →
  ∃ s' reg' w',
    let st1 := after_invocation st n s' reg' w' in
    loop_body self graph st =
      match successor graph n with
      | Some m => Continue (set_loop_count 0 (set_current (Some m) st1))
      | None => Break (on_run (set_status "completed") st1)
      end ∧
    ∀ m, runnable graph (registry st) m → runnable graph reg' m.
Proof.
  intros Hcur (path & f & Hpath & Htruthy & [reg' Hload] & Hplain).
  destruct (Hplain (state (run_state st)) (world st)) as (r & w' & Hf & Hr).
  destruct (execute_node_plain n f _ _ _ _ Hf Hr) as [s' Hexec].
  exists s', reg', w'. simpl. split.
  - rewrite (loop_body_invoked import_function _ _ _ _ _ _ _ _ _ _
               Hcur Hpath Htruthy Hload Hexec).
    rewrite handle_next_action_edges by done. unfold successor.
    by destruct (edges graph !! n) as [[m|[|m ms]]|].
  - intros m (pm & fm & ? & ? & Hres & ?). exists pm, fm.
    repeat (split; [done|]). split; [|done].
    by eapply load_from_path_keeps_resolved.
Qed.

Lemma while_loop_follows self graph rest :
  ∀ n fuel st,
    current st = Some n →
    Forall (runnable graph (registry st)) (n :: rest) →
    follows graph n rest →
    iteration_count st + length (n :: rest) ≤ max_iterations self →
    length (n :: rest) ≤ fuel →
    ∃ st',
      while_loop self graph fuel st = Some (Completed st') ∧
      node_name <$> log (run_state st')
        = (node_name <$> log (run_state st)) ++ n :: rest ∧
      error (run_state st') = error (run_state st).
Proof.
  induction rest as [|m rest IH]; intros n fuel st Hcur Hrun Hfollows Hiter
    Hfuel;
    (destruct fuel as [|fuel]; [simpl in Hfuel; lia|]);
    simpl; rewrite bool_decide_eq_true_2 by (simpl in Hiter; lia);
    destruct (plain_pass self graph st n Hcur (Forall_inv Hrun))
      as (s' & reg' & w' & Hbody & Hkeep); simpl in Hbody; rewrite Hbody.
  - simpl in Hfollows. rewrite Hfollows. eexists. split; [done|]. simpl.
    by rewrite fmap_app.
  - destruct Hfollows as [Hnext Hfollows]. rewrite Hnext.
    destruct (IH m fuel
                (set_loop_count 0
                   (set_current (Some m) (after_invocation st n s' reg' w'))))
      as (st' & Hloop & Hnames & Herror); try done.
    + simpl. eapply Forall_impl; [exact (Forall_inv_tail Hrun)|]. done.
    + simpl in *. lia.
    + simpl in *. lia.
    + exists st'. split; [done|]. rewrite Hnames, Herror. simpl.
      rewrite fmap_app. simpl. by rewrite <- app_assoc.
Qed.

Lemma completed_log_summary (l : list ExecutionLogEntry) :
  all_completed l →
  log_summary l = (λ n, (n, "completed")) <$> (node_name <$> l).
Proof.
  induction 1 as [|entry l Hentry _ IH]; [done|].
  unfold log_summary in *. csimpl. by rewrite Hentry, IH.
Qed.

(** X15: on a graph whose edges lead from the start node through a row of
    plain nodes to a node without successor, no longer than the iteration
    cap, the run completes with no error, and its log is that row of
    nodes in order, one completed entry each. *)
Theorem straight_run_logs_its_nodes_in_order self fuel p uuid graph_id
    initial_state start_node graph start rest :
  get_graph (p_store p) graph_id = Some graph →
  starting_node graph start_node = inr start →
  Forall (runnable graph (p_registry p)) (start :: rest) →
  follows graph start rest →
  length (start :: rest) ≤ max_iterations self →
  length (start :: rest) ≤ fuel →
  ∃ run p',
    execute_graph self fuel p uuid graph_id initial_state start_node
      = Some (inr run, p') ∧
    status run = "completed" ∧ error run = None ∧
    log_summary (log run) = (λ n, (n, "completed")) <$> (start :: rest).
Proof.
  intros Hget Hstart Hrun Hfollows Hcap Hfuel.
  destruct (while_loop_follows self graph rest start fuel
              (initial_loop_state (created_run uuid graph_id initial_state)
                 start (p_registry p) (p_world p)))
    as (st' & Hloop & Hnames & Herror); try done.
  eexists _, _. erewrite (execute_graph_traversal import_function) by done.
  unfold traversal. rewrite Hloop. simpl. split; [done|].
  pose proof (while_loop_status import_function _ _ _ _ _ Hloop) as Hstatus.
  pose proof (while_loop_all_completed _ _ _ _ _ Hloop (Forall_nil_2 _))
    as Hall.
  simpl in *. split; [done|]. split; [done|].
  by rewrite completed_log_summary, Hnames.
Qed.

(** *** Repeats below the cap *)

(** X16: a node that returns [repeat] [k] times, the loop counter staying
    below its cap and the iterations under theirs, is run [k] times on
    the same state, each run logged under its name with that state, and
    the loop goes on from there with the counter raised by [k]. *)
Theorem repeats_rerun_the_node self graph cur path f :
  nodes_get (nodes graph) cur = Some path →
  truthy path = true →
  ∀ k st,
    current st = Some cur →
    resolves (registry st) path f →
    repeats f k (state (run_state st)) (world st) →
    loop_count st + k < max_loop_iterations self →
    iteration_count st + k ≤ max_iterations self →
    ∃ st',
      (∀ fuel,
         while_loop self graph (k + fuel) st = while_loop self graph fuel st') ∧
      current st' = Some cur ∧
      resolves (registry st') path f ∧
      loop_count st' = loop_count st + k ∧
      iteration_count st' = iteration_count st + k ∧
      state (run_state st') = state (run_state st) ∧
      node_name <$> log (run_state st')
        = (node_name <$> log (run_state st)) ++ replicate k cur ∧
      state_snapshot <$> log (run_state st')
        = (state_snapshot <$> log (run_state st))
          ++ replicate k (state (run_state st)).
Proof.
  intros Hpath Htruthy. induction k as [|k IH];
    intros st Hcur Hres Hrep Hloop Hiter.
  { exists st. rewrite !Nat.add_0_r, !app_nil_r. done. }
  destruct Hrep as (w' & Hf & Hrep). pose proof Hres as [reg' Hload].
  pose proof (repeat_pass import_function self graph st cur path f reg' w'
                Hcur Hpath Htruthy Hload Hf) as Hbody.
  simpl in Hbody. rewrite bool_decide_eq_false_2 in Hbody by lia.
  destruct (IH (set_loop_count (loop_count st + 1)
                  (after_invocation st cur (state (run_state st)) reg' w')))
    as (st' & Hfuel & Hcur' & Hres' & Hloop' & Hiter' & Hstate & Hnames
        & Hsnaps); try done.
  { simpl. by eapply load_from_path_keeps_resolved. }
  { simpl. lia. }
  { simpl. lia. }
  exists st'. split.
  { intros fuel. simpl. rewrite bool_decide_eq_true_2 by lia.
    rewrite Hbody. apply Hfuel. }
  simpl in *. repeat (split; [done || lia|]).
  rewrite Hnames, Hsnaps, !fmap_app. simpl.
  by rewrite <- !app_assoc.
Qed.

End Runs.

(** ** The endpoints *)

Section Endpoints.

Variable import_function : string → string + node_func.

Abbreviation run_graph := (graph_endpoints.run_graph import_function).



(** X18: a run that [run_graph] answered with can be read back: under the
    run id of the response, [get_run_state] gives the same state, log and
    status with no current node, and an error exactly when the status is
    failed, and [list_runs] shows the run with the same status and the
    length of that log. *)
Theorem run_graph_then_get_run_state fuel p uuid request response p' :
  run_graph fuel p uuid request = Some (inr response, p') →
  ∃ err,
    graph_endpoints.get_run_state (p_store p') (response_run_id response) =
      inr {| state_run_id := response_run_id response;
             state_state := final_state response;
             state_log := response_log response;
             state_status := response_status response;
             state_current_node := None;
             state_error := err |} ∧
    graph_endpoints.list_runs (p_store p') !! response_run_id response =
      Some {| summary_run_id := response_run_id response;
              summary_run_graph_id := request_graph_id request;
              summary_status := response_status response;
              summary_current_node := None;
              log_length := length (response_log response) |} ∧
    (response_status response = "completed" ∧ err = None ∨
     response_status response = "failed" ∧ is_Some err).
Proof.
  unfold graph_endpoints.run_graph. intros Hanswer.
  destruct (get_graph (p_store p) (request_graph_id request)) as [g|];
    [|done].
  destruct (execute_graph import_function engine fuel p uuid _ _ _)
    as [[[e|run] p1]|] eqn:Hcall; [by destruct e| |done].
  simplify_eq. simpl.
  apply (execute_graph_returned import_function) in Hcall
    as (graph & start & st & _ & _ & Htraversal & -> & ->).
  apply traversal_terminal in Htraversal
    as (Hcurrent & Hid & Hgid & Hstatus); [|done].
  simpl in Hid, Hgid.
  exists (error (run_state st)).
  unfold graph_endpoints.get_run_state, graph_endpoints.list_runs, list_runs,
    get_run.
  simpl. rewrite lookup_fmap, Hid, lookup_insert_eq. simpl.
  by rewrite Hcurrent, Hid, Hgid.
Qed.

(** X19: [create_graph] files whatever it is given under the id drawn for
    it and answers with that id: [list_graphs] then shows the graph with
    its node names in the order of the request, every other graph and
    every run as before; nothing is checked, so a graph without nodes is
    accepted, and running it answers 400 and leaves a run in the store
    that is running with an empty log. *)
Theorem created_graph_is_listed store uuid request :
  let answer := graph_endpoints.create_graph store uuid request in
  response_graph_id answer.1 = uuid ∧
  graph_endpoints.list_graphs answer.2 !! uuid =
    Some {| summary_graph_id := uuid;
            summary_nodes := (request_nodes request).*1;
            summary_edges := request_edges request;
            summary_metadata := request_metadata request |} ∧
  (∀ other, other ≠ uuid →
     graph_endpoints.list_graphs answer.2 !! other
       = graph_endpoints.list_graphs store !! other) ∧
  runs answer.2 = runs store ∧
  (request_nodes request = [] →
   ∀ fuel reg w run_uuid initial_state start_node,
     ∃ p',
       run_graph fuel
         {| p_store := answer.2; p_registry := reg; p_world := w |} run_uuid
         {| request_graph_id := uuid;
            request_initial_state := initial_state;
            request_start_node := start_node |} =
         Some (inl {| status_code := 400;
                      detail :=
                        if truthy_opt start_node then
                          "Start node '" +:+ default "" start_node
                          +:+ "' not found in graph"
                        else "Graph has no nodes" |},
               p') ∧
       graph_endpoints.list_runs (p_store p') !! run_uuid =
         Some {| summary_run_id := run_uuid;
                 summary_run_graph_id := uuid;
                 summary_status := "running";
                 summary_current_node := None;
                 log_length := 0 |}).
Proof.
  unfold graph_endpoints.create_graph, graph_endpoints.list_graphs,
    list_graphs, create_graph.
  simpl. rewrite lookup_fmap, lookup_insert_eq.
  split; [done|]. split; [done|]. split.
  { intros other Hother. by rewrite !lookup_fmap, lookup_insert_ne. }
  split; [done|].
  intros Hempty fuel reg w run_uuid initial_state start_node.
  set (graph_def := {| graph_id := uuid; nodes := request_nodes request;
                       edges := request_edges request;
                       metadata := request_metadata request |}).
  assert (starting_node graph_def start_node =
            inl (ValueError
                   (if truthy_opt start_node then
                      "Start node '" +:+ default "" start_node
                      +:+ "' not found in graph"
                    else "Graph has no nodes"))) as Hstart.
  { unfold starting_node. simpl. rewrite Hempty.
    by destruct (truthy_opt start_node). }
  unfold graph_endpoints.run_graph, get_graph. simpl.
  rewrite lookup_insert_eq.
  erewrite (execute_graph_start_fails import_function); [|..|exact Hstart].
  2:{ unfold get_graph. simpl. by rewrite lookup_insert_eq. }
  eexists. split; [done|].
  unfold graph_endpoints.list_runs, list_runs. simpl.
  by rewrite lookup_fmap, lookup_insert_eq.
Qed.

End Endpoints.

(** ** The further theorems at the examples *)

Lemma example_run_returns graph_id :
  graph_id = failing_id ∨ graph_id = branching_id →
  ∃ run p', example_run graph_id ∅ None = Some (inr run, p').
Proof.
  intros [->| ->]; vm_compute; eexists _, _; reflexivity.
Defined.

Lemma create_graph_then_get_graph_witness :
  get_graph
    (create_graph (create_graph example_store cycle_graph).2
       cut_cycle_graph).2 cycle_id
    = Some cut_cycle_graph ∧
  get_graph
    (create_graph (create_graph example_store cycle_graph).2
       cut_cycle_graph).2 failing_id
    = get_graph example_store failing_id.
Proof.
  destruct (create_graph_then_get_graph example_store cycle_graph
              cut_cycle_graph eq_refl)
    as (_ & _ & Hlast & Hother & _).
  split; [exact Hlast|]. apply Hother. discriminate.
Defined.

Lemma delete_run_removes_one_run_witness :
  delete_run (create_run example_store example_uuid cycle_id ∅).2 example_uuid
    = (true, example_store) ∧
  get_run (delete_run store_with_run example_uuid).2 "other"
    = get_run store_with_run "other".
Proof.
  split.
  - destruct (delete_run_removes_one_run example_store example_uuid)
      as (_ & _ & _ & _ & _ & Hfresh).
    apply Hfresh. reflexivity.
  - destruct (delete_run_removes_one_run store_with_run example_uuid)
      as (_ & _ & _ & Hother & _).
    apply Hother. discriminate.
Defined.

Lemma update_run_is_an_upsert_witness :
  get_run
    (update_run (delete_run store_with_run example_uuid).2 example_uuid
       (created_run example_uuid failing_id ∅)) example_uuid
    = Some (created_run example_uuid failing_id ∅) ∧
  get_run
    (update_run store_with_run example_uuid
       (created_run example_uuid failing_id ∅)) "other"
    = get_run store_with_run "other".
Proof.
  destruct (update_run_is_an_upsert store_with_run example_uuid
              (created_run example_uuid failing_id ∅)
              (created_run example_uuid failing_id ∅))
    as (_ & Hdeleted & _ & Hother & _).
  split; [exact Hdeleted|]. apply Hother. discriminate.
Defined.

Lemma register_then_load_witness :
  ∃ reg',
    register example_registry "nodes.boom" (CoroutineFunction (returning ROther))
      = inr reg' ∧
    load_from_path no_modules reg' "nodes.boom" = (inr (returning ROther), reg') ∧
    get reg' "nodes.plain" = get example_registry "nodes.plain".
Proof.
  destruct (register_then_load no_modules example_registry "nodes.boom"
              (returning ROther))
    as (reg' & Hregister & _ & Hload & Hother & _).
  exists reg'. split; [exact Hregister|]. split; [exact Hload|].
  apply Hother. discriminate.
Defined.


Lemma returned_run_is_terminal_witness :
  ∃ run p',
    example_run failing_id ∅ None = Some (inr run, p') ∧
    current_node run = None ∧
    run_id run = example_uuid ∧
    run_graph_id run = failing_id ∧
    (status run = "completed" ∧ error run = None ∨
     status run = "failed" ∧ is_Some (error run)).
Proof.
  destruct (example_run_returns failing_id) as (run & p' & Hrun);
    [left; reflexivity|].
  exists run, p'. split; [exact Hrun|].
  exact (returned_run_is_terminal no_modules engine 1001 example_process
           example_uuid failing_id ∅ None run p' Hrun).
Defined.


Lemma only_last_entry_may_be_error_witness :
  ∃ run p',
    example_run branching_id ∅ None = Some (inr run, p') ∧
    (∀ i entry, log run !! i = Some entry → S i < length (log run) →
                entry_status entry = "completed") ∧
    (∀ entry, entry ∈ log run →
              entry_status entry = "completed" ∨ entry_status entry = "error") ∧
    (status run = "completed" →
     ∀ entry, entry ∈ log run → entry_status entry = "completed").
Proof.
  destruct (example_run_returns branching_id) as (run & p' & Hrun);
    [right; reflexivity|].
  exists run, p'. split; [exact Hrun|].
  exact (only_last_entry_may_be_error no_modules engine 1001 example_process
           example_uuid branching_id ∅ None run p' Hrun).
Defined.

Lemma log_starts_at_the_start_node_witness :
  ∃ run p' entry,
    example_run branching_id ∅ None = Some (inr run, p') ∧
    head (log run) = Some entry ∧
    (node_name entry = "a" ∨ "a" = "" ∧ node_name entry = "unknown").
Proof.
  destruct (example_run_returns branching_id) as (run & p' & Hrun);
    [right; reflexivity|].
  destruct (log_starts_at_the_start_node no_modules engine 1001
              example_process example_uuid branching_id ∅ None
              branching_graph "a" run p' Hrun eq_refl eq_refl)
    as (entry & Hhead & Hname).
  { apply Nat.ltb_lt. reflexivity. }
  exists run, p', entry. split; [exact Hrun|]. split; [exact Hhead|exact Hname].
Defined.

Lemma state_keys_are_never_removed_witness :
  ∃ run p',
    execute_graph no_modules engine 1001 example_process example_uuid
      nested_id nested_initial_state None = Some (inr run, p') ∧
    dom nested_initial_state ⊆ dom (state run) ∧
    ∀ entry, entry ∈ log run →
      dom nested_initial_state ⊆ dom (state_snapshot entry) ∧
      dom (state_snapshot entry) ⊆ dom (state run).
Proof.
  assert (∃ run p',
            execute_graph no_modules engine 1001 example_process example_uuid
              nested_id nested_initial_state None = Some (inr run, p'))
    as (run & p' & Hrun).
  { vm_compute. eexists _, _. reflexivity. }
  exists run, p'. split; [exact Hrun|].
  exact (state_keys_are_never_removed no_modules engine 1001 example_process
           example_uuid nested_id nested_initial_state None run p' Hrun).
Defined.

Lemma goto_target_is_read_again_witness :
  loop_body no_modules engine self_goto_graph
    (example_loop_state self_goto_id "a" ∅)
  = Continue
      (set_loop_count 0
         (set_current (Some "a")
            (after_invocation (example_loop_state self_goto_id "a" ∅) "a" ∅
               example_registry example_world))).
Proof.
  rewrite (goto_target_is_read_again no_modules engine self_goto_graph
             (example_loop_state self_goto_id "a" ∅) "a" "nodes.goto_a"
             (returning (RStr "goto:a")) example_registry "a" example_world
             eq_refl eq_refl eq_refl eq_refl eq_refl).
  reflexivity.
Defined.

Lemma undeclared_node_aborts_the_run_witness :
  ∃ st',
    traversal no_modules engine failing_graph 1
      (example_loop_state failing_id "zz" ∅) = Some st' ∧
    status (run_state st') = "failed" ∧
    error (run_state st') = Some "Node 'zz' not found in graph definition" ∧
    node_name <$> log (run_state st') = ["zz"].
Proof.
  destruct (undeclared_node_aborts_the_run no_modules engine failing_graph 1
              (example_loop_state failing_id "zz" ∅) "zz" eq_refl eq_refl)
    as (st' & Hrun & Hstatus & Herror & _ & _ & _ & Hnames).
  { apply Nat.ltb_lt. reflexivity. }
  { apply Nat.ltb_lt. reflexivity. }
  exists st'. split; [exact Hrun|]. split; [exact Hstatus|].
  split; [exact Herror|exact Hnames].
Defined.



Lemma example_runnable n :
  tools example_registry !! "nodes.plain" = Some (returning (RDict ∅)) →
  nodes_get (nodes branching_graph) n = Some "nodes.plain" →
  runnable no_modules branching_graph example_registry n.
Proof.
  intros Htool Hnode. exists "nodes.plain", (returning (RDict ∅)).
  split; [exact Hnode|]. split; [reflexivity|].
  split; [by apply example_resolves|].
  intros s w. exists (RDict ∅), w. split; [reflexivity|exact I].
Defined.

Lemma straight_run_logs_its_nodes_in_order_witness :
  ∃ run p',
    example_run branching_id ∅ None = Some (inr run, p') ∧
    status run = "completed" ∧ error run = None ∧
    log_summary (log run) = [("a", "completed"); ("b", "completed")].
Proof.
  apply (straight_run_logs_its_nodes_in_order no_modules engine 1001
           example_process example_uuid branching_id ∅ None branching_graph
           "a" ["b"]).
  - reflexivity.
  - reflexivity.
  - repeat constructor; apply example_runnable; reflexivity.
  - split; reflexivity.
  - apply Nat.leb_le. reflexivity.
  - apply Nat.leb_le. reflexivity.
Defined.

Lemma repeats_rerun_the_node_witness :
  ∃ st',
    (∀ fuel,
       while_loop no_modules engine repeat_graph (3 + fuel)
         (example_loop_state repeating_id "a" ∅)
       = while_loop no_modules engine repeat_graph fuel st') ∧
    current st' = Some "a" ∧
    loop_count st' = 3 ∧
    node_name <$> log (run_state st') = ["a"; "a"; "a"].
Proof.
  destruct (repeats_rerun_the_node no_modules engine repeat_graph "a"
              "nodes.repeat" (returning (RStr "repeat")) eq_refl eq_refl 3
              (example_loop_state repeating_id "a" ∅) eq_refl)
    as (st' & Hfuel & Hcur & _ & Hloop & _ & _ & Hnames & _).
  { apply example_resolves. reflexivity. }
  { apply returning_repeats. }
  { apply Nat.ltb_lt. reflexivity. }
  { apply Nat.leb_le. reflexivity. }
  exists st'. split; [exact Hfuel|]. split; [exact Hcur|].
  split; [exact Hloop|exact Hnames].
Defined.


Lemma run_graph_then_get_run_state_witness :
  ∃ response p' err,
    graph_endpoints.run_graph no_modules 1001 example_process example_uuid
      failing_request = Some (inr response, p') ∧
    graph_endpoints.get_run_state (p_store p') (response_run_id response) =
      inr {| state_run_id := response_run_id response;
             state_state := final_state response;
             state_log := response_log response;
             state_status := response_status response;
             state_current_node := None;
             state_error := err |} ∧
    (response_status response = "completed" ∧ err = None ∨
     response_status response = "failed" ∧ is_Some err).
Proof.
  assert (∃ response p',
            graph_endpoints.run_graph no_modules 1001 example_process
              example_uuid failing_request = Some (inr response, p'))
    as (response & p' & Hanswer).
  { vm_compute. eexists _, _. reflexivity. }
  destruct (run_graph_then_get_run_state no_modules 1001 example_process
              example_uuid failing_request response p' Hanswer)
    as (err & Hstate & _ & Hstatus).
  exists response, p', err. split; [exact Hanswer|].
  split; [exact Hstate|exact Hstatus].
Defined.

Lemma created_graph_is_listed_witness :
  ∃ p',
    graph_endpoints.run_graph no_modules 1001
      {| p_store :=
           (graph_endpoints.create_graph example_store cycle_id
              empty_graph_request).2;
         p_registry := example_registry;
         p_world := example_world |}
      example_uuid
      {| request_graph_id := cycle_id; request_initial_state := ∅;
         request_start_node := None |}
    = Some (inl {| status_code := 400; detail := "Graph has no nodes" |}, p') ∧
    graph_endpoints.list_runs (p_store p') !! example_uuid =
      Some {| summary_run_id := example_uuid;
              summary_run_graph_id := cycle_id;
              summary_status := "running";
              summary_current_node := None;
              log_length := 0 |}.
Proof.
  destruct (created_graph_is_listed no_modules example_store cycle_id
              empty_graph_request) as (_ & _ & _ & _ & Hrun).
  apply (Hrun eq_refl 1001 example_registry example_world example_uuid ∅ None).
Defined.
